(** * Job recommender: scoring and ranking engine

    A shallow embedding of [job_recommender.py]: the token normalizer
    [_normalize], the rule-based scorer [_score_job], the adapter of the
    external ranking service [_gpt_rank] and the public entry point
    [recommend_jobs], followed by the properties of the specification.

    Modelling conventions.
    - A Python [str] is a [string] of code points below 128; [str.strip],
      [str.lower] and [str.split] are the ASCII restrictions of the builtins.
    - A Python [float] is the rational number it denotes: the arithmetic of
      the scorer is carried out exactly in [Q], and [round(x, 2)] is rounding
      to the nearest multiple of 1/100, ties to even. Binary64 rounds every
      operation, so the two can differ in the last digit (25 matching skills
      of 96 give 15.625 here and 15.625000000000002 in binary64). The helper
      lemmas use the exact arithmetic freely; the numbered theorems state
      what holds of both: the operations in the order the code performs
      them, orders and bounds of scores, and sums that binary64 computes
      exactly.
    - A Python [set] is a [gset], a [dict] a [gmap]; the iteration order of a
      set is the order of [elements], and never reaches a result because the
      only iteration is the one of [sorted].
    - [sorted] and [list.sort] are the stable sort the language guarantees.
    - An exception is the [Raise] outcome of the [result] monad. *)

From Stdlib Require Import Ascii String QArith Qround Lqa.
From stdpp Require Import gmap strings list sorting pretty.

Local Open Scope string_scope.
Local Open Scope list_scope.

(** ** Python builtins *)

Module Py.

(** [str.isspace] on one code point below 128. *)
Definition isspace (c : ascii) : bool :=
  let n := N_of_ascii c in
  ((9 <=? n) && (n <=? 13) || (28 <=? n) && (n <=? 32))%N.

Definition lower_char (c : ascii) : ascii :=
  let n := N_of_ascii c in
  if ((65 <=? n) && (n <=? 90))%N then ascii_of_N (n + 32) else c.

(** [s.lower()] *)
Fixpoint lower (s : string) : string :=
  match s with
  | EmptyString => EmptyString
  | String c s' => String (lower_char c) (lower s')
  end.

(** [s.lstrip()] *)
Fixpoint lstrip (s : string) : string :=
  match s with
  | EmptyString => EmptyString
  | String c s' => if isspace c then lstrip s' else s
  end.

(** [s.rstrip()] *)
Fixpoint rstrip (s : string) : string :=
  match s with
  | EmptyString => EmptyString
  | String c s' =>
      match rstrip s' with
      | EmptyString => if isspace c then EmptyString else String c EmptyString
      | r => String c r
      end
  end.

(** [s.strip()] *)
Definition strip (s : string) : string := rstrip (lstrip s).

(** All the characters of [s] are spaces (so is the empty string). *)
Fixpoint whitespace_only (s : string) : bool :=
  match s with
  | EmptyString => true
  | String c s' => isspace c && whitespace_only s'
  end.

(** [s.split()]: the maximal runs of non-space characters. [cur] is the
    run being read. *)
Fixpoint split_go (cur : string) (s : string) : list string :=
  match s with
  | EmptyString => if decide (cur = EmptyString) then [] else [cur]
  | String c s' =>
      if isspace c
      then (if decide (cur = EmptyString) then [] else [cur])
           ++ split_go EmptyString s'
      else split_go (cur +:+ String c EmptyString) s'
  end.

Definition split (s : string) : list string := split_go EmptyString s.

(** [needle in hay] on strings. *)
Fixpoint contains (needle hay : string) : bool :=
  String.prefix needle hay
  || match hay with
     | EmptyString => false
     | String _ hay' => contains needle hay'
     end.

(** Truth value of an object in a condition. *)
Class Truthy (A : Type) := truthy : A → bool.
Global Instance truthy_bool : Truthy bool := λ b, b.
Global Instance truthy_str : Truthy string :=
  λ s, if decide (s = EmptyString) then false else true.
Global Instance truthy_float : Truthy Q := λ x, negb (Qeq_bool x 0).
Global Instance truthy_list {A} : Truthy (list A) :=
  λ l, match l with [] => false | _ => true end.
Global Instance truthy_set : Truthy (gset string) :=
  λ X, if decide (X = ∅) then false else true.
Global Instance truthy_optional {A} `{Truthy A} : Truthy (option A) :=
  λ o, match o with None => false | Some a => truthy a end.

(** The stable sort behind [sorted] and [list.sort]. [lt a b] is the
    comparison [a < b] the sort is run with; an element is moved over the
    elements that are strictly smaller and over no other. *)
Section sort.
Context {A : Type} (lt : A → A → bool).

Fixpoint insert (x : A) (l : list A) : list A :=
  match l with
  | [] => [x]
  | y :: l' => if lt y x then y :: insert x l' else x :: l
  end.

Definition sort (l : list A) : list A := foldr insert [] l.
End sort.

(** [a] may stand before [b] in a list sorted with [lt]. *)
Definition not_after {A : Type} (lt : A → A → bool) (a b : A) : Prop :=
  lt b a = false.

(** [sorted(xs)] on strings. *)
Definition sorted (l : list string) : list string := sort String.ltb l.

(** [l[:k]] *)
Definition slice_to {A} (l : list A) (k : Z) : list A :=
  if (0 <=? k)%Z then take (Z.to_nat k) l
  else take (length l - Z.to_nat (- k)) l.

(** [x < y] on floats *)
Definition float_lt (x y : Q) : bool := negb (Qle_bool y x).

(** [round(x, 2)] *)
Definition round_half_even (x : Q) : Z :=
  let f := Qfloor x in
  match (x - inject_Z f ?= 1 # 2)%Q with
  | Lt => f
  | Gt => (f + 1)%Z
  | Eq => if Z.even f then f else (f + 1)%Z
  end.

Definition round2 (x : Q) : Q := Qred (round_half_even (x * 100) # 100).

(** [sep.join(l)] *)
Definition join (sep : string) (l : list string) : string :=
  String.concat sep l.

End Py.

Import Py.

(** ** Normalizer *)

Definition _normalize (tokens : list string) : list string :=
  sorted (elements (C := gset string)
    (list_to_set ((λ token, lower (strip token)) <$>
       filter (λ token, truthy token ∧ truthy (strip token)) tokens))).

(** The token a kept entry contributes. *)
Definition canon (token : string) : string := lower (strip token).

(** The set the comprehension of [_normalize] builds. *)
Definition canon_set (tokens : list string) : gset string :=
  list_to_set (canon <$>
    filter (λ token, truthy token ∧ truthy (strip token)) tokens).

(** ** Data model *)

Module CandidateProfile.
Record t := mk {
  name : string;
  skills : list string;
  desired_titles : list string;
  location : option string;
  remote_only : bool;
  min_compensation : option Q;
  experience_level : option string;
  industries : option (list string)
}.
End CandidateProfile.

Module JobPosting.
Record t := mk {
  id : string;
  title : string;
  company : string;
  description : string;
  skills : list string;
  location : option string;
  remote : bool;
  compensation : option Q;
  experience_level : option string;
  industry : option string
}.
End JobPosting.

Module Recommendation.
Record t := mk {
  job : JobPosting.t;
  score : Q;
  rationale : string
}.
End Recommendation.

(** ** Deterministic scorer

    The body of [_score_job] updates two locals, [score] and
    [rationale_bits], in seven consecutive blocks. Each block is a function
    on the pair of the two locals. *)

Definition locals : Type := Q * list string.

Definition bump (delta : Q) (bit : string) (st : locals) : locals :=
  ((st.1 + delta)%Q, st.2 ++ [bit]).

Section rules.
Variables (profile : CandidateProfile.t) (job : JobPosting.t).

Definition profile_skills : gset string :=
  list_to_set (_normalize (CandidateProfile.skills profile)).
Definition job_skills : gset string :=
  list_to_set (_normalize (JobPosting.skills job)).
Definition overlap : gset string := profile_skills ∩ job_skills.

Definition overlap_ratio : Q :=
  inject_Z (Z.of_nat (size overlap))
  / inject_Z (Z.of_nat (Nat.max (size job_skills) 1)).

Definition skill_rule (st : locals) : locals :=
  if truthy overlap
  then bump (overlap_ratio * 60) (pretty (size overlap) +:+ " skill matches") st
  else st.

Definition title_rule (st : locals) : locals :=
  let desired_titles : gset string :=
    list_to_set (_normalize (CandidateProfile.desired_titles profile)) in
  if truthy desired_titles then
    let title_tokens : gset string :=
      list_to_set (_normalize (split (JobPosting.title job))) in
    let title_overlap := desired_titles ∩ title_tokens in
    if truthy title_overlap then bump 15 "title matches target" st else st
  else st.

Definition remote_rule (st : locals) : locals :=
  if CandidateProfile.remote_only profile then
    if JobPosting.remote job
    then bump 10 "remote friendly" st
    else bump (-20) "not remote" st
  else st.

Definition location_rule (st : locals) : locals :=
  match CandidateProfile.location profile, JobPosting.location job with
  | Some ploc, Some jloc =>
      if truthy ploc && truthy jloc then
        if contains (lower ploc) (lower jloc)
        then bump 10 "location match" st
        else st
      else st
  | _, _ => st
  end.

Definition compensation_rule (st : locals) : locals :=
  match CandidateProfile.min_compensation profile,
        JobPosting.compensation job with
  | Some floor, Some comp =>
      if truthy floor && truthy comp then
        if Qle_bool floor comp
        then bump 10 "meets compensation floor" st
        else bump (-10) "below compensation target" st
      else st
  | _, _ => st
  end.

Definition experience_rule (st : locals) : locals :=
  match CandidateProfile.experience_level profile,
        JobPosting.experience_level job with
  | Some pexp, Some jexp =>
      if truthy pexp && truthy jexp then
        if decide (lower pexp = lower jexp)
        then bump 5 "experience level match" st
        else st
      else st
  | _, _ => st
  end.

Definition industry_rule (st : locals) : locals :=
  match CandidateProfile.industries profile, JobPosting.industry job with
  | Some inds, Some ind =>
      if truthy inds && truthy ind then
        if decide (lower ind ∈ _normalize inds)
        then bump 5 "industry preference" st
        else st
      else st
  | _, _ => st
  end.

(** The locals after the seven blocks. *)
Definition run_rules : locals :=
  industry_rule (experience_rule (compensation_rule (location_rule
    (remote_rule (title_rule (skill_rule (0%Q, []))))))).

(** The six blocks below the skill block. *)
Definition other_rules (st : locals) : locals :=
  industry_rule (experience_rule (compensation_rule (location_rule
    (remote_rule (title_rule st))))).

(** The blocks above and below the compensation block. *)
Definition rules_above : locals :=
  location_rule (remote_rule (title_rule (skill_rule (0%Q, [])))).
Definition rules_below (st : locals) : locals :=
  industry_rule (experience_rule st).

Definition _score_job : Recommendation.t :=
  let '(score, rationale_bits) := run_rules in
  let rationale_bits :=
    if truthy rationale_bits then rationale_bits else ["general fit"] in
  Recommendation.mk job (round2 score) (join "; " rationale_bits).
End rules.

(** The block [rule] adds [d] to [score] and appends [bits] to
    [rationale_bits], whatever the two locals hold. *)
Definition adds (rule : locals → locals) (d : Q) (bits : list string) : Prop :=
  ∀ st, ((rule st).1 == st.1 + d)%Q ∧ (rule st).2 = st.2 ++ bits.

(** [contributes rule lo hi]: the block adds some amount between [lo] and
    [hi]. *)
Definition contributes (rule : locals → locals) (lo hi : Q) : Prop :=
  ∃ d bits, adds rule d bits ∧ (lo <= d <= hi)%Q.

(** The amount is present and is not zero: the object is truthy. *)
Definition present_nonzero (amount : option Q) : Prop :=
  ∃ x, amount = Some x ∧ ¬ (x == 0)%Q.

(** The profile with no compensation floor. *)
Definition without_floor (profile : CandidateProfile.t) : CandidateProfile.t :=
  CandidateProfile.mk
    (CandidateProfile.name profile)
    (CandidateProfile.skills profile)
    (CandidateProfile.desired_titles profile)
    (CandidateProfile.location profile)
    (CandidateProfile.remote_only profile)
    None
    (CandidateProfile.experience_level profile)
    (CandidateProfile.industries profile).

(** The profile with [skill] appended to its skills. *)
Definition with_skill (profile : CandidateProfile.t) (skill : string) :
    CandidateProfile.t :=
  CandidateProfile.mk
    (CandidateProfile.name profile)
    (CandidateProfile.skills profile ++ [skill])
    (CandidateProfile.desired_titles profile)
    (CandidateProfile.location profile)
    (CandidateProfile.remote_only profile)
    (CandidateProfile.min_compensation profile)
    (CandidateProfile.experience_level profile)
    (CandidateProfile.industries profile).

(** ** Exceptions *)

Inductive result (A : Type) : Type :=
| Ok (a : A)
| Raise.
Arguments Ok {A} a.
Arguments Raise {A}.

Global Instance result_ret : MRet result := @Ok.
Global Instance result_bind : MBind result := λ A B f m,
  match m with Ok a => f a | Raise => Raise end.

(** ** External-model-assisted strategy

    What the text-generation service answers is an input of the model. A
    [gpt_reply] records how far [_gpt_rank] gets and, when the answer parses,
    the part of the JSON document that the loop inspects. *)

Inductive json_id :=
| IdStr (s : string)   (* a string *)
| IdOther              (* absent, null, a number or a boolean *)
| IdUnhashable.        (* a list or an object: [lookup.get] raises *)

Inductive json_score :=
| ScoreFloat (x : Q)   (* absent (0) or accepted by [float] *)
| ScoreInvalid.        (* [float] raises *)

Inductive gpt_item :=
| ItemNotDict                                       (* [item.get] raises *)
| ItemDict (id : json_id) (score : json_score) (rationale : string).

Inductive gpt_data :=
| DataNotDict                          (* [data.get] raises *)
| DataDict (recs : option (list gpt_item)).
    (* the value under "recommendations", [[]] when absent; [None] when the
       value cannot be iterated *)

Inductive gpt_reply :=
| NoClientLibrary                      (* the import fails *)
| ServiceFailure                       (* the client or both requests raise *)
| ReplyText (data : option gpt_data).  (* [None]: [json.loads] raises *)

(** The dictionary [{job.id: job for job in jobs}]. *)
Definition job_lookup (jobs : list JobPosting.t) : gmap string JobPosting.t :=
  foldl (λ m job, <[JobPosting.id job := job]> m) ∅ jobs.

Definition lookup_get (lookup : gmap string JobPosting.t) (i : json_id) :
    result (option JobPosting.t) :=
  match i with
  | IdStr s => Ok (lookup !! s)
  | IdOther => Ok None
  | IdUnhashable => Raise
  end.

Definition float_of (s : json_score) : result Q :=
  match s with ScoreFloat x => Ok x | ScoreInvalid => Raise end.

(** The loop over the items of the answer; [recommendations] is the list
    built so far. *)
Fixpoint gpt_loop (lookup : gmap string JobPosting.t) (items : list gpt_item)
    (recommendations : list Recommendation.t) :
    result (list Recommendation.t) :=
  match items with
  | [] => Ok recommendations
  | ItemNotDict :: _ => Raise
  | ItemDict i s r :: items' =>
      found ← lookup_get lookup i;
      match found with
      | None => gpt_loop lookup items' recommendations
      | Some job =>
          score ← float_of s;
          gpt_loop lookup items'
            (recommendations ++ [Recommendation.mk job score r])
      end
  end.

Definition data_get_recommendations (data : gpt_data) :
    result (list gpt_item) :=
  match data with
  | DataNotDict => Raise
  | DataDict None => Raise
  | DataDict (Some items) => Ok items
  end.

Definition _gpt_rank (reply : gpt_reply) (profile : CandidateProfile.t)
    (jobs : list JobPosting.t) (top_k : Z) : result (list Recommendation.t) :=
  match reply with
  | NoClientLibrary => Ok []
  | ServiceFailure => Raise
  | ReplyText None => Ok []
  | ReplyText (Some data) =>
      let lookup := job_lookup jobs in
      items ← data_get_recommendations data;
      recommendations ← gpt_loop lookup items [];
      Ok (slice_to recommendations top_k)
  end.

(** ** Ranking strategy selector *)

(** [scored.sort(key=lambda rec: rec.score, reverse=True)] *)
Definition sort_by_score_desc (scored : list Recommendation.t) :
    list Recommendation.t :=
  sort (λ a b, float_lt (Recommendation.score b) (Recommendation.score a))
    scored.

(** The path below the [try] block. *)
Definition deterministic_rank (profile : CandidateProfile.t)
    (jobs_list : list JobPosting.t) (top_k : Z) : list Recommendation.t :=
  let scored := _score_job profile <$> jobs_list in
  slice_to (sort_by_score_desc scored) top_k.

Definition getenv (env : gmap string string) (key : string) : option string :=
  env !! key.

(** The value of [use_gpt] after the first two lines of [recommend_jobs]. *)
Definition resolved_use_gpt (env : gmap string string)
    (use_gpt : option bool) : bool :=
  match use_gpt with
  | Some b => b
  | None =>
      bool_decide
        (lower (default "false" (getenv env "USE_GPT_RECOMMENDER")) = "true")
  end.

Definition recommend_jobs (env : gmap string string) (reply : gpt_reply)
    (profile : CandidateProfile.t) (jobs : list JobPosting.t) (top_k : Z)
    (use_gpt : option bool) : result (list Recommendation.t) :=
  let use_gpt := resolved_use_gpt env use_gpt in
  let jobs_list := jobs in
  let attempt : option (list Recommendation.t) :=
    if use_gpt && truthy (getenv env "OPENAI_API_KEY") then
      match _gpt_rank reply profile jobs_list top_k with
      | Ok gpt_recs => if truthy gpt_recs then Some gpt_recs else None
      | Raise => None
      end
    else None in
  match attempt with
  | Some gpt_recs => Ok gpt_recs
  | None => Ok (deterministic_rank profile jobs_list top_k)
  end.

(** ** Vocabulary of the properties *)

Global Instance Qeq_decision (x y : Q) : Decision (x == y)%Q := Qeq_dec x y.

(** The recommendations of [l] whose score is [s]. *)
Definition with_score (s : Q) (l : list Recommendation.t) :
    list Recommendation.t :=
  filter (λ r, (Recommendation.score r == s)%Q) l.

(** [a] may stand before [b] in a ranking: its score is not smaller. *)
Definition score_ge (a b : Recommendation.t) : Prop :=
  (Recommendation.score b <= Recommendation.score a)%Q.

(** Every recommendation of [recs] is about one of [jobs]. *)
Definition refers_to (jobs : list JobPosting.t)
    (recs : list Recommendation.t) : Prop :=
  ∀ r, r ∈ recs →
    Recommendation.job r ∈ jobs
    ∧ JobPosting.id (Recommendation.job r) ∈ JobPosting.id <$> jobs.

(** ** Request handler ([job_api.py])

    The request and response models have the fields of the records of the
    recommender; [model_dump] followed by the constructor copies them one by
    one. Validation of the raw request happens before the handler runs. *)

Module CandidateProfileIn.
Record t := mk {
  name : string;
  skills : list string;
  desired_titles : list string;
  location : option string;
  remote_only : bool;
  min_compensation : option Q;
  experience_level : option string;
  industries : option (list string)
}.
End CandidateProfileIn.

Module JobPostingIn.
Record t := mk {
  id : string;
  title : string;
  company : string;
  description : string;
  skills : list string;
  location : option string;
  remote : bool;
  compensation : option Q;
  experience_level : option string;
  industry : option string
}.
End JobPostingIn.

Module RecommendationOut.
Record t := mk {
  id : string;
  title : string;
  company : string;
  score : Q;
  rationale : string
}.
End RecommendationOut.

Module RecommendationRequest.
Record t := mk {
  profile : CandidateProfileIn.t;
  jobs : list JobPostingIn.t;
  top_k : Z;
  use_gpt : option bool
}.
End RecommendationRequest.

Module RecommendationResponse.
Record t := mk {
  recommendations : list RecommendationOut.t
}.
End RecommendationResponse.

(** The [CandidateProfile] built from [payload.profile.model_dump()]. *)
Definition profile_of_payload (p : CandidateProfileIn.t) : CandidateProfile.t :=
  CandidateProfile.mk
    (CandidateProfileIn.name p)
    (CandidateProfileIn.skills p)
    (CandidateProfileIn.desired_titles p)
    (CandidateProfileIn.location p)
    (CandidateProfileIn.remote_only p)
    (CandidateProfileIn.min_compensation p)
    (CandidateProfileIn.experience_level p)
    (CandidateProfileIn.industries p).

(** The [JobPosting] built from [job.model_dump()]. *)
Definition job_of_payload (j : JobPostingIn.t) : JobPosting.t :=
  JobPosting.mk
    (JobPostingIn.id j)
    (JobPostingIn.title j)
    (JobPostingIn.company j)
    (JobPostingIn.description j)
    (JobPostingIn.skills j)
    (JobPostingIn.location j)
    (JobPostingIn.remote j)
    (JobPostingIn.compensation j)
    (JobPostingIn.experience_level j)
    (JobPostingIn.industry j).

Definition recommendation_out (rec : Recommendation.t) : RecommendationOut.t :=
  RecommendationOut.mk
    (JobPosting.id (Recommendation.job rec))
    (JobPosting.title (Recommendation.job rec))
    (JobPosting.company (Recommendation.job rec))
    (Recommendation.score rec)
    (Recommendation.rationale rec).

Definition get_recommendations (env : gmap string string) (reply : gpt_reply)
    (payload : RecommendationRequest.t) : result RecommendationResponse.t :=
  let profile := profile_of_payload (RecommendationRequest.profile payload) in
  let jobs := job_of_payload <$> RecommendationRequest.jobs payload in
  recs ← recommend_jobs env reply profile jobs
           (RecommendationRequest.top_k payload)
           (RecommendationRequest.use_gpt payload);
  Ok (RecommendationResponse.mk (recommendation_out <$> recs)).

(** ** Vocabulary of the further properties *)

(** Some character of [s] is a space. *)
Fixpoint has_space (s : string) : bool :=
  match s with
  | EmptyString => false
  | String c s' => isspace c || has_space s'
  end.

(** Some desired title, once trimmed and lower-cased, is a lower-cased word
    of the job title. *)
Definition title_word_match (profile : CandidateProfile.t)
    (job : JobPosting.t) : Prop :=
  ∃ d w, d ∈ CandidateProfile.desired_titles profile
         ∧ w ∈ split (JobPosting.title job)
         ∧ whitespace_only d = false
         ∧ lower (strip d) = lower w.

(** The length of a rationale fragment that a block can append: 10 for
    ["not remote"], 14 or more for every other one. *)
Definition fragment (bit : string) : Prop :=
  String.length bit = 10%nat ∨ (14 ≤ String.length bit)%nat.

(** The lower-cased location of the profile, which is not empty, occurs in
    the lower-cased location of the job. *)
Definition location_match (profile : CandidateProfile.t)
    (job : JobPosting.t) : Prop :=
  ∃ ploc jloc pre post,
    CandidateProfile.location profile = Some ploc
    ∧ JobPosting.location job = Some jloc
    ∧ ploc ≠ EmptyString
    ∧ lower jloc = pre +:+ lower ploc +:+ post.

(** What every block does to the locals: nothing, or one [bump] with a
    fragment. *)
Definition block (rule : locals → locals) : Prop :=
  ∀ st, rule st = st ∨ ∃ d bit, fragment bit ∧ rule st = bump d bit st.

(** What holds of the locals between the blocks: the fragments have the
    lengths of fragments, and as long as there is none the score is the
    initial one. *)
Definition untouched_or_explained (st : locals) : Prop :=
  Forall fragment st.2 ∧ (st.2 = [] → st = (0%Q, [])).

(** The job with its [remote] flag set to [b]. *)
Definition with_remote (job : JobPosting.t) (b : bool) : JobPosting.t :=
  JobPosting.mk
    (JobPosting.id job)
    (JobPosting.title job)
    (JobPosting.company job)
    (JobPosting.description job)
    (JobPosting.skills job)
    (JobPosting.location job)
    b
    (JobPosting.compensation job)
    (JobPosting.experience_level job)
    (JobPosting.industry job).

(** The blocks below the remote block. *)
Definition rules_below_remote (profile : CandidateProfile.t)
    (job : JobPosting.t) (st : locals) : locals :=
  industry_rule profile job (experience_rule profile job
    (compensation_rule profile job (location_rule profile job st))).

(** An entry of the answer that passes through the loop without an
    exception: an object whose id can be looked up and whose score [float]
    accepts. *)
Definition well_formed (item : gpt_item) : Prop :=
  match item with
  | ItemDict (IdStr _) (ScoreFloat _) _ => True
  | ItemDict IdOther (ScoreFloat _) _ => True
  | _ => False
  end.

(** The recommendation a well-formed entry stands for, if its id is the id
    of a job. *)
Definition item_recommendation (lookup : gmap string JobPosting.t)
    (item : gpt_item) : option Recommendation.t :=
  match item with
  | ItemDict (IdStr key) (ScoreFloat x) r =>
      (λ job, Recommendation.mk job x r) <$> lookup !! key
  | _ => None
  end.

(** The id of the entry is the id of no job of [jobs]. *)
Definition unknown_id (jobs : list JobPosting.t) (item : gpt_item) : Prop :=
  match item with
  | ItemDict (IdStr key) _ _ => key ∉ JobPosting.id <$> jobs
  | ItemDict IdOther _ _ => True
  | _ => False
  end.

(** The behaviours of the external service that leave [_gpt_rank] without a
    usable ranking. *)
Inductive unusable (jobs : list JobPosting.t) : gpt_reply → Prop :=
| unusable_import : unusable jobs NoClientLibrary
| unusable_service : unusable jobs ServiceFailure
| unusable_text : unusable jobs (ReplyText None)
| unusable_shape : unusable jobs (ReplyText (Some DataNotDict))
| unusable_value : unusable jobs (ReplyText (Some (DataDict None)))
| unusable_item items :
    ItemNotDict ∈ items →
    unusable jobs (ReplyText (Some (DataDict (Some items))))
| unusable_key items s r :
    ItemDict IdUnhashable s r ∈ items →
    unusable jobs (ReplyText (Some (DataDict (Some items))))
| unusable_ids items :
    Forall (unknown_id jobs) items →
    unusable jobs (ReplyText (Some (DataDict (Some items)))).

(** ** Sample requests *)

Definition profile_lowest : CandidateProfile.t :=
  CandidateProfile.mk "Ada" [] [] None true (Some 100000%Q) None None.
Definition job_lowest : JobPosting.t :=
  JobPosting.mk "j1" "Clerk" "Acme" "Files" [] None false (Some 80000%Q)
    None None.

Definition profile_highest : CandidateProfile.t :=
  CandidateProfile.mk "Ada" ["python"] ["engineer"] (Some "berlin") true
    (Some 100000%Q) (Some "Senior") (Some ["Tech"]).
Definition job_highest : JobPosting.t :=
  JobPosting.mk "j2" "Backend Engineer" "Acme" "APIs" ["Python"]
    (Some "Berlin, DE") true (Some 120000%Q) (Some "senior") (Some "tech").

Definition profile_a : CandidateProfile.t :=
  CandidateProfile.mk "Ada" ["python"; "sql"] ["engineer"] None false None
    None None.
Definition job_a : JobPosting.t :=
  JobPosting.mk "a" "Backend Engineer" "Acme" "APIs" ["python"; "sql"] None
    false None None None.
Definition job_b : JobPosting.t :=
  JobPosting.mk "b" "Gardener" "Acme" "Roses" [] None false None None None.
Definition profile_sql : CandidateProfile.t :=
  CandidateProfile.mk "Ada" ["sql"] [] None false None None None.
Definition profile_zero_floor : CandidateProfile.t :=
  CandidateProfile.mk "Ada" [] [] None false (Some 0%Q) None None.
Definition env_with_key : gmap string string :=
  {[ "USE_GPT_RECOMMENDER" := "TRUE"; "OPENAI_API_KEY" := "sk" ]}.
Definition env_without_key : gmap string string :=
  {[ "USE_GPT_RECOMMENDER" := "TRUE" ]}.
Definition reply_two_items : gpt_reply :=
  ReplyText (Some (DataDict (Some
    [ItemDict (IdStr "zzz") (ScoreFloat 9) "unknown";
     ItemDict (IdStr "b") (ScoreFloat 7) "fits"]))).

Definition reply_mixed : gpt_reply :=
  ReplyText (Some (DataDict (Some
    [ItemDict (IdStr "b") (ScoreFloat 7) "fits";
     ItemDict (IdStr "zzz") ScoreInvalid "unknown";
     ItemDict IdOther (ScoreFloat 3) "no id";
     ItemDict (IdStr "a") (ScoreFloat 5) "fine"]))).

Definition profile_blank : CandidateProfile.t :=
  CandidateProfile.mk "Ada" [] [] None false None None None.
Definition profile_remote : CandidateProfile.t :=
  CandidateProfile.mk "Ada" [] [] None true None None None.
Definition profile_floor : CandidateProfile.t :=
  CandidateProfile.mk "Ada" [] [] None false (Some 100000%Q) None None.
Definition profile_python : CandidateProfile.t :=
  CandidateProfile.mk "Ada" ["python"] [] None false None None None.
Definition job_twice : JobPosting.t :=
  JobPosting.mk "t" "Analyst" "Acme" "Data" ["Python"; "python"] None false
    None None None.

Definition profile_two_words : CandidateProfile.t :=
  CandidateProfile.mk "Ada" [] ["Backend Engineer"] None false None None None.
Definition job_untrimmed : JobPosting.t :=
  JobPosting.mk "u" "Analyst" "Acme" "Data" [] None false None None
    (Some " tech").
Definition payload_a : RecommendationRequest.t :=
  RecommendationRequest.mk
    (CandidateProfileIn.mk "Ada" ["python"; "sql"] ["engineer"] None false
       None None None)
    [JobPostingIn.mk "b" "Gardener" "Acme" "Roses" [] None false None None
       None;
     JobPostingIn.mk "a" "Backend Engineer" "Acme" "APIs" ["python"; "sql"]
       None false None None None;
     JobPostingIn.mk "c" "Clerk" "Acme" "Files" [] None false None None None]
    2 None.

(** * Properties *)

(** ** Strings *)

Section string_facts.

Lemma lower_char_idemp c : lower_char (lower_char c) = lower_char c.
Proof. by destruct c as [[] [] [] [] [] [] [] []]. Qed.

Lemma isspace_lower_char c : isspace (lower_char c) = isspace c.
Proof. by destruct c as [[] [] [] [] [] [] [] []]. Qed.

Lemma lower_idemp s : lower (lower s) = lower s.
Proof.
  induction s as [|c s IH]; simpl; [done|].
  by rewrite lower_char_idemp, IH.
Qed.

Lemma lower_empty s : lower s = EmptyString ↔ s = EmptyString.
Proof. by destruct s. Qed.

Lemma lstrip_lower s : lstrip (lower s) = lower (lstrip s).
Proof.
  induction s as [|c s IH]; simpl; [done|].
  rewrite isspace_lower_char. by destruct (isspace c).
Qed.

Lemma rstrip_lower s : rstrip (lower s) = lower (rstrip s).
Proof.
  induction s as [|c s IH]; simpl; [done|].
  rewrite IH, isspace_lower_char.
  destruct (rstrip s); simpl; [by destruct (isspace c)|done].
Qed.

Lemma strip_lower s : strip (lower s) = lower (strip s).
Proof. unfold strip. by rewrite lstrip_lower, rstrip_lower. Qed.

Lemma rstrip_idemp s : rstrip (rstrip s) = rstrip s.
Proof.
  induction s as [|c s IH]; simpl; [done|].
  destruct (rstrip s) as [|d r] eqn:E.
  - destruct (isspace c) eqn:Ec; simpl; [done|]. by rewrite Ec.
  - change (rstrip (String c (String d r))) with
      (match rstrip (String d r) with
       | EmptyString => if isspace c then EmptyString else String c EmptyString
       | r' => String c r'
       end).
    by rewrite IH.
Qed.

(** A string that [lstrip] leaves alone is empty or starts with a
    character that is not a space. *)
Lemma lstrip_head s :
  lstrip s = EmptyString ∨ ∃ c s', lstrip s = String c s' ∧ isspace c = false.
Proof.
  induction s as [|c s IH]; simpl; [by left|].
  destruct (isspace c) eqn:Ec; [done|]. right. eauto.
Qed.

Lemma lstrip_rstrip_lstrip s : lstrip (rstrip (lstrip s)) = rstrip (lstrip s).
Proof.
  destruct (lstrip_head s) as [->|(c & s' & -> & Hc)]; [done|].
  simpl. destruct (rstrip s'); rewrite ?Hc; simpl; by rewrite Hc.
Qed.

Lemma strip_idemp s : strip (strip s) = strip s.
Proof. unfold strip. by rewrite lstrip_rstrip_lstrip, rstrip_idemp. Qed.

Lemma rstrip_empty s : rstrip s = EmptyString ↔ whitespace_only s = true.
Proof.
  induction s as [|c s IH]; simpl; [done|].
  destruct (rstrip s) eqn:E, (isspace c) eqn:Ec; simpl; try done.
  all: split; [done|]; intros H; by apply IH in H.
Qed.

Lemma strip_empty s : strip s = EmptyString ↔ whitespace_only s = true.
Proof.
  unfold strip. rewrite rstrip_empty.
  induction s as [|c s IH]; simpl; [done|].
  destruct (isspace c) eqn:Ec; simpl; [done|]. by rewrite Ec.
Qed.

Lemma canon_fixed t : canon (canon t) = canon t.
Proof. unfold canon. by rewrite strip_lower, strip_idemp, lower_idemp. Qed.

Lemma canon_lower t : lower (canon t) = canon t.
Proof. apply lower_idemp. Qed.

Lemma canon_strip t : strip (canon t) = canon t.
Proof. unfold canon. by rewrite strip_lower, strip_idemp. Qed.

Lemma truthy_str_spec (s : string) : truthy s ↔ s ≠ EmptyString.
Proof. unfold truthy, truthy_str. by destruct (decide (s = EmptyString)). Qed.

Lemma strip_truthy s : strip s ≠ EmptyString → s ≠ EmptyString.
Proof. by intros H ->. Qed.

End string_facts.

(** ** The stable sort *)

Section sort_facts.
Context {A : Type} (lt : A → A → bool).

Lemma insert_perm x l : insert lt x l ≡ₚ x :: l.
Proof.
  induction l as [|y l IH]; simpl; [done|].
  destruct (lt y x); [|done]. rewrite IH. apply Permutation_swap.
Qed.

Lemma sort_perm l : sort lt l ≡ₚ l.
Proof.
  induction l as [|x l IH]; simpl; [done|].
  by rewrite insert_perm, IH.
Qed.

Lemma sort_length l : length (sort lt l) = length l.
Proof. by rewrite sort_perm. Qed.

Lemma sort_elem_of x l : x ∈ sort lt l ↔ x ∈ l.
Proof. by rewrite sort_perm. Qed.

(** An element jumps over no element of its own class: the elements that
    satisfy [P] keep their order. *)
Lemma insert_filter (P : A → Prop) `{!∀ a, Decision (P a)} x l :
  (∀ y, P x → P y → lt y x = false) →
  filter P (insert lt x l) = filter P (x :: l).
Proof.
  intros HP. induction l as [|y l IH]; simpl; [done|].
  destruct (lt y x) eqn:E; [|done].
  rewrite !filter_cons, IH, filter_cons.
  destruct (decide (P y)) as [Hy|Hy], (decide (P x)) as [Hx|Hx]; try done.
  specialize (HP y Hx Hy). congruence.
Qed.

Lemma sort_stable (P : A → Prop) `{!∀ a, Decision (P a)} l :
  (∀ x y, P x → P y → lt y x = false) →
  filter P (sort lt l) = filter P l.
Proof.
  intros HP. induction l as [|x l IH]; simpl; [done|].
  rewrite insert_filter by eauto. by rewrite !filter_cons, IH.
Qed.

Lemma StronglySorted_weaken (R1 R2 : relation A) l :
  (∀ a b, R1 a b → R2 a b) → StronglySorted R1 l → StronglySorted R2 l.
Proof.
  intros HR. induction 1 as [|x l Hl IH Hx]; constructor; [done|].
  eapply Forall_impl; [exact Hx|]. eauto.
Qed.

Section order.
Hypothesis lt_asym : ∀ a b, lt a b = true → lt b a = false.
Hypothesis not_after_trans : ∀ a b c,
  not_after lt a b → not_after lt b c → not_after lt a c.

Lemma insert_sorted x l :
  StronglySorted (not_after lt) l →
  StronglySorted (not_after lt) (insert lt x l).
Proof.
  induction 1 as [|y l Hl IH Hy]; simpl.
  - repeat constructor.
  - destruct (lt y x) eqn:E.
    + constructor; [done|].
      rewrite insert_perm. constructor; [by apply lt_asym|done].
    + constructor; [by constructor|].
      constructor; [done|].
      eapply Forall_impl; [exact Hy|]. intros z Hz.
      by apply not_after_trans with y.
Qed.

Lemma sort_sorted l : StronglySorted (not_after lt) (sort lt l).
Proof.
  induction l as [|x l IH]; simpl; [constructor|by apply insert_sorted].
Qed.
End order.
End sort_facts.

(** The order of [sorted] on strings. *)

Lemma ltb_not_after (a b : string) : not_after String.ltb a b ↔ String.le a b.
Proof.
  unfold not_after, String.le, String.ltb, String.leb.
  rewrite (String.compare_antisym a b).
  destruct (String.compare b a); simpl; naive_solver.
Qed.

Lemma ltb_asym (a b : string) : String.ltb a b = true → String.ltb b a = false.
Proof.
  unfold String.ltb. rewrite (String.compare_antisym a b).
  by destruct (String.compare b a).
Qed.

Lemma ltb_not_after_trans (a b c : string) :
  not_after String.ltb a b → not_after String.ltb b c →
  not_after String.ltb a c.
Proof. rewrite !ltb_not_after. apply transitivity. Qed.

Lemma ltb_le_ne (a b : string) : String.le a b → a ≠ b → String.ltb a b = true.
Proof.
  unfold String.le, String.leb, String.ltb. intros Hle Hne.
  destruct (String.compare a b) eqn:E; [|done..].
  by apply String.compare_eq_iff in E.
Qed.

Lemma sorted_perm l : sorted l ≡ₚ l.
Proof. apply sort_perm. Qed.

Lemma sorted_strict l :
  NoDup l → StronglySorted (λ a b, String.ltb a b = true) (sorted l).
Proof.
  intros Hnd. rewrite <-(sorted_perm l) in Hnd.
  pose proof (sort_sorted String.ltb ltb_asym ltb_not_after_trans l) as Hs.
  fold (sorted l) in Hs. induction Hs as [|x l' Hs IH Hx]; [constructor|].
  apply NoDup_cons in Hnd as [Hx' Hnd]. constructor; [by apply IH|].
  apply Forall_forall. intros y Hy.
  apply ltb_le_ne.
  - apply ltb_not_after. by eapply Forall_forall in Hx.
  - intros ->. done.
Qed.

(** ** Normalizer *)

Lemma normalize_unfold tokens :
  _normalize tokens = sorted (elements (canon_set tokens)).
Proof. reflexivity. Qed.

Lemma elem_of_canon_set s tokens :
  s ∈ canon_set tokens ↔ ∃ t, t ∈ tokens ∧ strip t ≠ EmptyString ∧ s = canon t.
Proof.
  unfold canon_set. rewrite elem_of_list_to_set, list_elem_of_fmap.
  split.
  - intros (t & -> & [[_ H] Ht]%list_elem_of_filter).
    exists t. by rewrite truthy_str_spec in H.
  - intros (t & Ht & Hs & ->). exists t. split; [done|].
    apply list_elem_of_filter. rewrite !truthy_str_spec.
    eauto using strip_truthy.
Qed.

Lemma elem_of_normalize s tokens : s ∈ _normalize tokens ↔ s ∈ canon_set tokens.
Proof. by rewrite normalize_unfold, sorted_perm, elem_of_elements. Qed.

Lemma normalize_NoDup tokens : NoDup (_normalize tokens).
Proof. rewrite normalize_unfold, sorted_perm. apply NoDup_elements. Qed.

Lemma list_to_set_normalize tokens :
  list_to_set (_normalize tokens) = canon_set tokens.
Proof.
  apply set_eq. intros s. by rewrite elem_of_list_to_set, elem_of_normalize.
Qed.

Lemma normalize_elem_canon s tokens :
  s ∈ _normalize tokens → canon s = s ∧ s ≠ EmptyString.
Proof.
  rewrite elem_of_normalize, elem_of_canon_set.
  intros (t & _ & Ht & ->). split; [apply canon_fixed|].
  unfold canon. by rewrite lower_empty.
Qed.

Lemma canon_set_fixed (l : list string) :
  (∀ s, s ∈ l → canon s = s ∧ s ≠ EmptyString) → canon_set l = list_to_set l.
Proof.
  intros Hl. apply set_eq. intros s.
  rewrite elem_of_canon_set, elem_of_list_to_set. split.
  - intros (t & Ht & _ & ->). by destruct (Hl t Ht) as [-> _].
  - intros Hs. destruct (Hl s Hs) as [Hc Hne]. exists s.
    split_and!; [done| |done].
    intros Hst. apply Hne. unfold canon in Hc. by rewrite Hst in Hc.
Qed.

(** C6. For every sequence of strings the Normalizer returns a sequence
    without duplicates, in strictly increasing lexicographic order, whose
    entries are exactly the lower-cased, trimmed forms of the input tokens
    that are neither empty nor made of whitespace only; every entry is
    lower-case, trimmed and not empty; and
    [["Python"; "python"; " PYTHON "]] normalizes to [["python"]]. The
    function is total. *)
Theorem normalize_spec :
  (∀ tokens : list string,
     NoDup (_normalize tokens)
     ∧ StronglySorted (λ a b, String.ltb a b = true) (_normalize tokens)
     ∧ (∀ s, s ∈ _normalize tokens ↔
             ∃ t, t ∈ tokens ∧ whitespace_only t = false
                  ∧ s = lower (strip t))
     ∧ (∀ s, s ∈ _normalize tokens →
             lower s = s ∧ strip s = s ∧ s ≠ EmptyString))
  ∧ _normalize ["Python"; "python"; " PYTHON "] = ["python"].
Proof.
  split; [|by vm_compute].
  intros tokens. split_and!.
  - apply normalize_NoDup.
  - rewrite normalize_unfold. apply sorted_strict, NoDup_elements.
  - intros s. rewrite elem_of_normalize, elem_of_canon_set.
    apply exist_proper. intros t.
    rewrite <-(not_true_iff_false (whitespace_only t)), <-strip_empty.
    done.
  - intros s Hs.
    destruct (normalize_elem_canon _ _ Hs) as [Hc Hne].
    split_and!; [|  |done].
    + rewrite <-Hc. apply canon_lower.
    + rewrite <-Hc. apply canon_strip.
Qed.

(** C7. The Normalizer is idempotent. *)
Theorem normalize_idempotent (tokens : list string) :
  _normalize (_normalize tokens) = _normalize tokens.
Proof.
  rewrite (normalize_unfold (_normalize tokens)).
  rewrite canon_set_fixed by (intros s; apply normalize_elem_canon).
  by rewrite list_to_set_normalize.
Qed.

(** ** Rounding *)

Section rounding.
Local Open Scope Q_scope.

Lemma round_half_even_floor x :
  (Qfloor x ≤ round_half_even x ≤ Qfloor x + 1)%Z.
Proof.
  unfold round_half_even.
  destruct (x - inject_Z (Qfloor x) ?= 1 # 2); [destruct (Z.even _)|..]; lia.
Qed.

Lemma round_half_even_mono x y :
  x <= y → (round_half_even x ≤ round_half_even y)%Z.
Proof.
  intros Hxy. pose proof (Qfloor_resp_le _ _ Hxy) as Hf.
  destruct (decide (Qfloor x = Qfloor y)) as [E|NE].
  - unfold round_half_even. rewrite <-E.
    assert (x - inject_Z (Qfloor x) <= y - inject_Z (Qfloor x)) as Hr.
    { apply Qplus_le_l. done. }
    destruct (Qcompare_spec (x - inject_Z (Qfloor x)) (1 # 2));
      destruct (Qcompare_spec (y - inject_Z (Qfloor x)) (1 # 2));
      try (destruct (Z.even (Qfloor x))); try lia; exfalso; lra.
  - pose proof (round_half_even_floor x). pose proof (round_half_even_floor y).
    lia.
Qed.

Lemma round2_mono x y : x <= y → round2 x <= round2 y.
Proof.
  intros Hxy. unfold round2. rewrite !Qred_correct.
  unfold Qle. simpl. apply Z.mul_le_mono_nonneg_r; [done|].
  apply round_half_even_mono. by apply Qmult_le_compat_r.
Qed.

Global Instance round_half_even_proper : Proper (Qeq ==> eq) round_half_even.
Proof.
  intros x y Hxy. apply Z.le_antisymm; apply round_half_even_mono;
    rewrite Hxy; apply Qle_refl.
Qed.

Global Instance round2_proper : Proper (Qeq ==> eq) round2.
Proof.
  intros x y Hxy. unfold round2. by rewrite Hxy.
Qed.
End rounding.

(** ** Scorer *)

Section scorer_facts.
Local Open Scope Q_scope.

Lemma truthy_set_spec (X : gset string) : truthy X = true ↔ X ≠ ∅.
Proof. unfold truthy, truthy_set. by destruct (decide (X = ∅)). Qed.

Lemma truthy_set_size (X : gset string) : truthy X = false ↔ size X = 0%nat.
Proof.
  unfold truthy, truthy_set. rewrite size_empty_iff.
  destruct (decide (X = ∅)) as [->|H]; [done|].
  split; [done|]. intros H'. by apply leibniz_equiv in H'.
Qed.

Lemma adds_skip : adds (λ st, st) 0 [].
Proof. intros st. split; [lra|by rewrite app_nil_r]. Qed.

Lemma adds_bump d bit : adds (bump d bit) d [bit].
Proof. intros st. unfold bump. simpl. split; [lra|done]. Qed.

Lemma adds_compose r1 r2 d1 d2 b1 b2 :
  adds r1 d1 b1 → adds r2 d2 b2 → adds (r2 ∘ r1) (d1 + d2) (b1 ++ b2).
Proof.
  intros H1 H2 st. destruct (H1 st) as [E1 E1'], (H2 (r1 st)) as [E2 E2'].
  simpl. rewrite E2, E2', E1, E1'. split; [lra|by rewrite app_assoc].
Qed.

Lemma adds_init r d bits :
  adds r d bits → (r (0, [])).1 == d ∧ (r (0, [])).2 = bits.
Proof.
  intros H. destruct (H (0, [])) as [E E']. simpl in *. split; [lra|done].
Qed.

Lemma contributes_compose r1 r2 lo1 hi1 lo2 hi2 :
  contributes r1 lo1 hi1 → contributes r2 lo2 hi2 →
  contributes (r2 ∘ r1) (lo1 + lo2) (hi1 + hi2).
Proof.
  intros (d1 & b1 & H1 & ?) (d2 & b2 & H2 & ?).
  exists (d1 + d2), (b1 ++ b2). split; [by apply adds_compose|lra].
Qed.

Ltac solve_contributes :=
  repeat case_match;
  first [ eexists _, _; split; [apply adds_bump|lra]
        | eexists _, _; split; [apply adds_skip|lra] ].

Variables (profile : CandidateProfile.t) (job : JobPosting.t).

Lemma overlap_size_le :
  (size (overlap profile job) ≤ size (job_skills job))%nat.
Proof. apply subseteq_size. unfold overlap. apply intersection_subseteq_r. Qed.

Lemma overlap_ratio_bounds : 0 <= overlap_ratio profile job <= 1.
Proof.
  unfold overlap_ratio. pose proof overlap_size_le as Hle.
  set (n := size (overlap profile job)) in *.
  set (m := size (job_skills job)) in *.
  assert (0 < inject_Z (Z.of_nat (m `max` 1))) as Hpos.
  { change 0 with (inject_Z 0). rewrite <-Zlt_Qlt. lia. }
  split.
  - apply Qle_shift_div_l; [done|]. rewrite Qmult_0_l.
    change 0 with (inject_Z 0). rewrite <-Zle_Qle. lia.
  - apply Qle_shift_div_r; [done|]. rewrite Qmult_1_l.
    rewrite <-Zle_Qle. lia.
Qed.

Lemma skill_rule_contributes : contributes (skill_rule profile job) 0 60.
Proof.
  unfold skill_rule. pose proof overlap_ratio_bounds.
  destruct (truthy (overlap profile job)).
  - eexists _, _. split; [apply adds_bump|lra].
  - eexists _, _. split; [apply adds_skip|lra].
Qed.

Lemma title_rule_contributes : contributes (title_rule profile job) 0 15.
Proof. unfold title_rule. solve_contributes. Qed.

Lemma remote_rule_contributes : contributes (remote_rule profile job) (-20) 10.
Proof. unfold remote_rule. solve_contributes. Qed.

Lemma location_rule_contributes : contributes (location_rule profile job) 0 10.
Proof. unfold location_rule. solve_contributes. Qed.

Lemma compensation_rule_contributes :
  contributes (compensation_rule profile job) (-10) 10.
Proof. unfold compensation_rule. solve_contributes. Qed.

Lemma experience_rule_contributes :
  contributes (experience_rule profile job) 0 5.
Proof. unfold experience_rule. solve_contributes. Qed.

Lemma industry_rule_contributes : contributes (industry_rule profile job) 0 5.
Proof. unfold industry_rule. solve_contributes. Qed.

Lemma run_rules_split :
  run_rules profile job
  = other_rules profile job (skill_rule profile job (0, [])).
Proof. reflexivity. Qed.

Lemma other_rules_contributes :
  contributes (other_rules profile job) (-30) 55.
Proof.
  pose proof (contributes_compose _ _ _ _ _ _ title_rule_contributes
    remote_rule_contributes) as H.
  pose proof (contributes_compose _ _ _ _ _ _ H location_rule_contributes) as H1.
  pose proof (contributes_compose _ _ _ _ _ _ H1 compensation_rule_contributes) as H2.
  pose proof (contributes_compose _ _ _ _ _ _ H2 experience_rule_contributes) as H3.
  pose proof (contributes_compose _ _ _ _ _ _ H3 industry_rule_contributes) as H4.
  destruct H4 as (d & bits & Hadd & Hd).
  exists d, bits. split; [exact Hadd|]. lra.
Qed.

Lemma run_rules_bounds : -30 <= (run_rules profile job).1 <= 115.
Proof.
  destruct other_rules_contributes as (d & bits & Hadd & Hd).
  destruct skill_rule_contributes as (d0 & bits0 & Hadd0 & Hd0).
  rewrite run_rules_split.
  destruct (Hadd (skill_rule profile job (0, []))) as [-> _].
  destruct (Hadd0 (0, [])) as [-> _]. simpl. lra.
Qed.

Lemma score_job_score :
  Recommendation.score (_score_job profile job)
  = round2 (run_rules profile job).1.
Proof. unfold _score_job. by destruct (run_rules profile job). Qed.

Lemma score_job_job : Recommendation.job (_score_job profile job) = job.
Proof. unfold _score_job. by destruct (run_rules profile job). Qed.

Lemma score_job_bounds :
  -30 <= Recommendation.score (_score_job profile job) <= 115.
Proof.
  rewrite score_job_score. destruct run_rules_bounds as [Hlo Hhi].
  split.
  - change (-30) with (round2 (-30)). by apply round2_mono.
  - change 115 with (round2 115). by apply round2_mono.
Qed.
End scorer_facts.

(** *** The skill block *)

Section skill_facts.
Local Open Scope Q_scope.
Variables (profile : CandidateProfile.t) (job : JobPosting.t).

Lemma skill_rule_fires st :
  overlap profile job ≠ ∅ →
  skill_rule profile job st
  = (st.1 + inject_Z (Z.of_nat (size (overlap profile job)))
            / inject_Z (Z.of_nat (Nat.max (size (job_skills job)) 1)) * 60,
     st.2 ++ [pretty (size (overlap profile job)) +:+ " skill matches"]).
Proof.
  intros H%truthy_set_spec. unfold skill_rule. by rewrite H.
Qed.

Lemma skill_rule_skips st :
  overlap profile job = ∅ → skill_rule profile job st = st.
Proof. intros H. unfold skill_rule. by rewrite H. Qed.

(** Whether the block fires or not, the score moves by the ratio times
    60: an empty overlap has ratio 0. *)
Lemma skill_rule_score st :
  (skill_rule profile job st).1 == st.1 + overlap_ratio profile job * 60.
Proof.
  unfold skill_rule. destruct (truthy (overlap profile job)) eqn:E; [done|].
  apply truthy_set_size in E. unfold overlap_ratio. rewrite E.
  change (inject_Z (Z.of_nat 0)) with 0. unfold Qdiv.
  by rewrite !Qmult_0_l, Qplus_0_r.
Qed.

Lemma run_rules_score :
  (run_rules profile job).1
  == overlap_ratio profile job * 60 + (other_rules profile job (0, [])).1.
Proof.
  destruct (other_rules_contributes profile job) as (d & bits & Hadd & _).
  rewrite run_rules_split.
  destruct (Hadd (skill_rule profile job (0, []))) as [-> _].
  destruct (Hadd (0, [])) as [-> _]. rewrite skill_rule_score. simpl. lra.
Qed.

Lemma run_rules_bits st :
  (other_rules profile job st).2 = st.2 ++ (other_rules profile job (0, [])).2.
Proof.
  destruct (other_rules_contributes profile job) as (d & bits & Hadd & _).
  destruct (Hadd st) as [_ ->]. by destruct (Hadd (0, [])) as [_ ->].
Qed.
End skill_facts.

Lemma score_job_rationale (profile : CandidateProfile.t)
    (job : JobPosting.t) :
  Recommendation.rationale (_score_job profile job)
  = if truthy (run_rules profile job).2
    then join "; " (run_rules profile job).2
    else "general fit".
Proof.
  unfold _score_job. destruct (run_rules profile job) as [score bits].
  simpl. by destruct (truthy bits).
Qed.

(** C4. Skill overlap. Let [common] be the intersection of the normalized
    profile skills and the normalized job skills, [n] its size and [m] the
    size of the normalized job-skill set. If [common] is not empty the block
    adds [(n / max m 1) * 60] to the score and appends ["<n> skill matches"];
    the scorer then runs the six other blocks on the score [0 + amount] and
    that one fragment, and returns the job, the rounded score so obtained
    and a rationale that starts with the fragment, followed by the
    fragments of the other blocks. If [common] is empty the block changes
    nothing and the recommendation is the one the six other blocks give
    from the initial locals. *)
Theorem skill_overlap_rule (profile : CandidateProfile.t) (job : JobPosting.t) :
  let common : gset string :=
    list_to_set (_normalize (CandidateProfile.skills profile))
    ∩ list_to_set (_normalize (JobPosting.skills job)) in
  let n := size common in
  let m := size (list_to_set (C := gset string)
                   (_normalize (JobPosting.skills job))) in
  let amount :=
    (inject_Z (Z.of_nat n) / inject_Z (Z.of_nat (Nat.max m 1)) * 60)%Q in
  let fragment := pretty n +:+ " skill matches" in
  (common ≠ ∅ →
     (∀ st, skill_rule profile job st = ((st.1 + amount)%Q, st.2 ++ [fragment]))
     ∧ run_rules profile job
       = other_rules profile job ((0 + amount)%Q, [fragment])
     ∧ (run_rules profile job).2
       = fragment :: (other_rules profile job (0%Q, [])).2
     ∧ Recommendation.job (_score_job profile job) = job
     ∧ Recommendation.score (_score_job profile job)
       = round2 (other_rules profile job ((0 + amount)%Q, [fragment])).1
     ∧ Recommendation.rationale (_score_job profile job)
       = join "; " (fragment :: (other_rules profile job (0%Q, [])).2))
  ∧ (common = ∅ →
     (∀ st, skill_rule profile job st = st)
     ∧ run_rules profile job = other_rules profile job (0%Q, [])
     ∧ Recommendation.job (_score_job profile job) = job
     ∧ Recommendation.score (_score_job profile job)
       = round2 (other_rules profile job (0%Q, [])).1
     ∧ Recommendation.rationale (_score_job profile job)
       = if truthy (other_rules profile job (0%Q, [])).2
         then join "; " (other_rules profile job (0%Q, [])).2
         else "general fit").
Proof.
  intros common n m amount fragment. split.
  - intros Hne.
    assert (run_rules profile job
            = other_rules profile job ((0 + amount)%Q, [fragment])) as Hrun.
    { by rewrite run_rules_split, (skill_rule_fires _ _ (0%Q, []) Hne). }
    assert ((run_rules profile job).2
            = fragment :: (other_rules profile job (0%Q, [])).2) as Hbits.
    { by rewrite Hrun, run_rules_bits. }
    split_and!.
    + intros st. by apply skill_rule_fires.
    + done.
    + done.
    + apply score_job_job.
    + by rewrite score_job_score, Hrun.
    + by rewrite score_job_rationale, Hbits.
  - intros He.
    assert (run_rules profile job = other_rules profile job (0%Q, []))
      as Hrun.
    { by rewrite run_rules_split, (skill_rule_skips _ _ _ He). }
    split_and!.
    + intros st. by apply skill_rule_skips.
    + done.
    + apply score_job_job.
    + by rewrite score_job_score, Hrun.
    + by rewrite score_job_rationale, Hrun.
Qed.

(** *** The compensation block *)

Section compensation_facts.
Local Open Scope Q_scope.
Variables (profile : CandidateProfile.t) (job : JobPosting.t).

Lemma truthy_amount (amount : option Q) :
  truthy amount = true ↔ present_nonzero amount.
Proof.
  unfold present_nonzero. destruct amount as [x|].
  - change (truthy (Some x)) with (negb (Qeq_bool x 0)).
    rewrite negb_true_iff, <-not_true_iff_false, Qeq_bool_iff.
    split; [by exists x|]. by intros (y & [= <-] & Hy).
  - split; [done|]. by intros (y & [=] & _).
Qed.

Lemma run_rules_around :
  run_rules profile job
  = rules_below profile job
      (compensation_rule profile job (rules_above profile job)).
Proof. reflexivity. Qed.

Lemma run_rules_without_floor :
  run_rules (without_floor profile) job
  = rules_below profile job (rules_above profile job).
Proof. reflexivity. Qed.

Lemma rules_below_adds : ∃ d bits, adds (rules_below profile job) d bits.
Proof.
  destruct (contributes_compose _ _ _ _ _ _
    (experience_rule_contributes profile job)
    (industry_rule_contributes profile job)) as (d & bits & H & _).
  by exists d, bits.
Qed.

Lemma compensation_rule_skips st :
  ¬ (present_nonzero (CandidateProfile.min_compensation profile)
     ∧ present_nonzero (JobPosting.compensation job)) →
  compensation_rule profile job st = st.
Proof.
  rewrite <-!truthy_amount. unfold compensation_rule.
  destruct (CandidateProfile.min_compensation profile) as [floor|]; [|done].
  destruct (JobPosting.compensation job) as [comp|]; [|done].
  change (truthy (Some floor)) with (truthy floor).
  change (truthy (Some comp)) with (truthy comp).
  destruct (truthy floor), (truthy comp); simpl; try done.
  intros []. done.
Qed.

Lemma compensation_rule_fires floor comp st :
  CandidateProfile.min_compensation profile = Some floor →
  JobPosting.compensation job = Some comp →
  ¬ floor == 0 → ¬ comp == 0 →
  compensation_rule profile job st
  = if Qle_bool floor comp
    then bump 10 "meets compensation floor" st
    else bump (-10) "below compensation target" st.
Proof.
  intros Hf Hc Hf0 Hc0. unfold compensation_rule. rewrite Hf, Hc.
  assert (truthy floor = true) as ->.
  { apply (truthy_amount (Some floor)). by exists floor. }
  assert (truthy comp = true) as ->; [|done].
  apply (truthy_amount (Some comp)). by exists comp.
Qed.
Lemma rules_below_bits st :
  (rules_below profile job st).2
  = st.2 ++ (rules_below profile job (0, [])).2.
Proof.
  destruct rules_below_adds as (d & bits & Hadd).
  destruct (Hadd st) as [_ ->]. by destruct (Hadd (0, [])) as [_ ->].
Qed.

Lemma rules_below_mono st st' :
  st.1 <= st'.1 →
  (rules_below profile job st).1 <= (rules_below profile job st').1.
Proof.
  intros H. destruct rules_below_adds as (d & bits & Hadd).
  destruct (Hadd st) as [-> _]. destruct (Hadd st') as [-> _]. lra.
Qed.

(** What the scorer returns when the compensation block is a [bump]. *)
Lemma score_job_compensation d bit :
  compensation_rule profile job (rules_above profile job)
  = bump d bit (rules_above profile job) →
  Recommendation.score (_score_job profile job)
  = round2 (rules_below profile job
              ((rules_above profile job).1 + d,
               (rules_above profile job).2 ++ [bit])).1
  ∧ Recommendation.rationale (_score_job profile job)
    = join "; " ((rules_above profile job).2
                 ++ bit :: (rules_below profile job (0, [])).2).
Proof.
  intros H. rewrite score_job_score, score_job_rationale, run_rules_around, H.
  split; [done|]. rewrite rules_below_bits. unfold bump. simpl.
  rewrite <-app_assoc. simpl.
  by destruct ((rules_above profile job).2).
Qed.

Lemma score_job_without_floor :
  Recommendation.score (_score_job (without_floor profile) job)
  = round2 (rules_below profile job (rules_above profile job)).1.
Proof. by rewrite score_job_score, run_rules_without_floor. Qed.

End compensation_facts.

(** C5. Compensation floor. The block fires only when the floor of the
    profile and the compensation of the job are both present and not zero;
    in every other case it leaves the locals alone and the recommendation is
    the one of the profile without a floor. When it fires and the
    compensation reaches the floor it adds 10 and appends
    ["meets compensation floor"]; when it fires and the compensation is
    below the floor it subtracts 10 and appends
    ["below compensation target"]. In both cases the scorer returns the
    rounded score that the two blocks below give from the score of the
    blocks above moved by that amount, and a rationale in which the fragment
    stands between the fragments of the blocks above and those of the
    blocks below; the score is not lower, respectively not higher, than the
    score of the profile without a floor. *)
Theorem compensation_floor_rule (profile : CandidateProfile.t)
    (job : JobPosting.t) :
  (¬ (present_nonzero (CandidateProfile.min_compensation profile)
      ∧ present_nonzero (JobPosting.compensation job)) →
     (∀ st, compensation_rule profile job st = st)
     ∧ _score_job profile job = _score_job (without_floor profile) job)
  ∧ (∀ floor comp,
       CandidateProfile.min_compensation profile = Some floor →
       JobPosting.compensation job = Some comp →
       ¬ (floor == 0)%Q → ¬ (comp == 0)%Q →
       ((floor <= comp)%Q →
          (∀ st, compensation_rule profile job st
                 = ((st.1 + 10)%Q, st.2 ++ ["meets compensation floor"]))
          ∧ Recommendation.score (_score_job profile job)
            = round2 (rules_below profile job
                        (((rules_above profile job).1 + 10)%Q,
                         (rules_above profile job).2
                         ++ ["meets compensation floor"])).1
          ∧ Recommendation.rationale (_score_job profile job)
            = join "; " ((rules_above profile job).2
                         ++ "meets compensation floor"
                            :: (rules_below profile job (0%Q, [])).2)
          ∧ (Recommendation.score (_score_job (without_floor profile) job)
             <= Recommendation.score (_score_job profile job))%Q)
       ∧ ((comp < floor)%Q →
          (∀ st, compensation_rule profile job st
                 = ((st.1 - 10)%Q, st.2 ++ ["below compensation target"]))
          ∧ Recommendation.score (_score_job profile job)
            = round2 (rules_below profile job
                        (((rules_above profile job).1 - 10)%Q,
                         (rules_above profile job).2
                         ++ ["below compensation target"])).1
          ∧ Recommendation.rationale (_score_job profile job)
            = join "; " ((rules_above profile job).2
                         ++ "below compensation target"
                            :: (rules_below profile job (0%Q, [])).2)
          ∧ (Recommendation.score (_score_job profile job)
             <= Recommendation.score (_score_job (without_floor profile) job))%Q)).
Proof.
  split.
  - intros Hno. split; [intros st; by apply compensation_rule_skips|].
    unfold _score_job.
    by rewrite run_rules_around, run_rules_without_floor,
      compensation_rule_skips.
  - intros floor comp Hf Hc Hf0 Hc0. split.
    + intros Hle. apply Qle_bool_iff in Hle.
      assert (∀ st, compensation_rule profile job st
                    = bump 10 "meets compensation floor" st) as Hrule.
      { intros st.
        by rewrite (compensation_rule_fires _ _ _ _ _ Hf Hc Hf0 Hc0), Hle. }
      destruct (score_job_compensation profile job 10
        "meets compensation floor" (Hrule _)) as [Hscore Hrat].
      split_and!; [exact Hrule|exact Hscore|exact Hrat|].
      rewrite Hscore, score_job_without_floor.
      apply round2_mono, rules_below_mono. simpl. lra.
    + intros Hlt. assert (Qle_bool floor comp = false) as Hle.
      { apply not_true_iff_false. rewrite Qle_bool_iff. by apply Qlt_not_le. }
      assert (∀ st, compensation_rule profile job st
                    = bump (-10) "below compensation target" st) as Hrule.
      { intros st.
        by rewrite (compensation_rule_fires _ _ _ _ _ Hf Hc Hf0 Hc0), Hle. }
      destruct (score_job_compensation profile job (-10)
        "below compensation target" (Hrule _)) as [Hscore Hrat].
      split_and!; [exact Hrule|exact Hscore|exact Hrat|].
      rewrite Hscore, score_job_without_floor.
      apply round2_mono, rules_below_mono. simpl. lra.
Qed.

(** *** Monotonicity in the skills of the profile *)

Section monotone_facts.
Local Open Scope Q_scope.
Variables (profile : CandidateProfile.t) (job : JobPosting.t) (skill : string).

Lemma canon_set_snoc (l : list string) :
  strip skill ≠ EmptyString →
  canon_set (l ++ [skill]) = canon_set l ∪ {[canon skill]}.
Proof.
  intros Hs. apply set_eq. intros x.
  rewrite elem_of_union, elem_of_singleton, !elem_of_canon_set. split.
  - intros (t & [Ht| ->%list_elem_of_singleton]%elem_of_app & Hne & ->);
      [left; eauto|by right].
  - intros [(t & Ht & Hne & ->)| ->].
    + exists t. rewrite elem_of_app. eauto.
    + exists skill. rewrite elem_of_app, list_elem_of_singleton. eauto.
Qed.

Hypothesis in_job : canon skill ∈ _normalize (JobPosting.skills job).
Hypothesis not_in_profile :
  canon skill ∉ _normalize (CandidateProfile.skills profile).

Lemma skill_not_blank : strip skill ≠ EmptyString.
Proof.
  apply normalize_elem_canon in in_job as [_ Hne].
  intros H. apply Hne. unfold canon. by rewrite H.
Qed.

Lemma overlap_with_skill :
  overlap (with_skill profile skill) job
  = overlap profile job ∪ {[canon skill]}.
Proof.
  unfold overlap, profile_skills, job_skills, with_skill. simpl.
  rewrite !list_to_set_normalize, canon_set_snoc by apply skill_not_blank.
  pose proof (proj1 (elem_of_normalize _ _) in_job) as Hin.
  apply set_eq. intros x.
  rewrite elem_of_union, !elem_of_intersection, elem_of_union,
    elem_of_singleton.
  split; [tauto|]. intros [?| ->]; tauto.
Qed.

Lemma size_overlap_with_skill :
  size (overlap (with_skill profile skill) job)
  = S (size (overlap profile job)).
Proof.
  rewrite overlap_with_skill, size_union, size_singleton; [lia|].
  apply disjoint_singleton_r. unfold overlap, profile_skills.
  rewrite elem_of_intersection, elem_of_list_to_set. tauto.
Qed.

Lemma job_skills_nonempty : (1 ≤ size (job_skills job))%nat.
Proof.
  assert (canon skill ∈ job_skills job) as H.
  { unfold job_skills. by apply elem_of_list_to_set. }
  destruct (size (job_skills job)) eqn:E; [|lia].
  apply size_empty_iff in E. rewrite E in H. by apply not_elem_of_empty in H.
Qed.

Lemma run_rules_with_skill :
  (run_rules (with_skill profile skill) job).1
  == (run_rules profile job).1
     + 60 / inject_Z (Z.of_nat (size (job_skills job))).
Proof.
  rewrite !run_rules_score.
  change (other_rules (with_skill profile skill) job)
    with (other_rules profile job).
  unfold overlap_ratio. rewrite size_overlap_with_skill.
  pose proof job_skills_nonempty as Hm.
  rewrite Nat.max_l by done.
  rewrite Nat2Z.inj_succ, <-Z.add_1_r, inject_Z_plus.
  change (inject_Z 1) with 1.
  assert (¬ inject_Z (Z.of_nat (size (job_skills job))) == 0) as Hne.
  { change 0 with (inject_Z 0). rewrite inject_Z_injective. lia. }
  field. done.
Qed.

Lemma run_rules_with_skill_le :
  (run_rules profile job).1 <= (run_rules (with_skill profile skill) job).1.
Proof.
  rewrite run_rules_with_skill.
  assert (0 <= 60 / inject_Z (Z.of_nat (size (job_skills job)))) as H; [|lra].
  pose proof job_skills_nonempty as Hm.
  apply Qle_shift_div_l.
  - change 0 with (inject_Z 0). rewrite <-Zlt_Qlt. lia.
  - rewrite Qmult_0_l. done.
Qed.
End monotone_facts.

(** C8. Monotonicity of the skill rule. If the normalized form of [skill]
    is one of the normalized skills of the job and none of the normalized
    skills of the profile, then the score of the job for the profile with
    [skill] appended to its skills is greater than or equal to the score for
    the profile itself. *)
Theorem skill_monotone (profile : CandidateProfile.t) (job : JobPosting.t)
    (skill : string) :
  lower (strip skill) ∈ _normalize (JobPosting.skills job) →
  lower (strip skill) ∉ _normalize (CandidateProfile.skills profile) →
  (Recommendation.score (_score_job profile job)
   <= Recommendation.score (_score_job (with_skill profile skill) job))%Q.
Proof.
  intros Hjob Hprofile.
  rewrite !score_job_score. by apply round2_mono, run_rules_with_skill_le.
Qed.

(** *** Range of the score *)

(** C9. The score of every profile and job lies between -30 and 115. The
    lower end is reached when the remote penalty and the compensation
    penalty fire and no other block does, the upper end when every bonus
    fires with the full overlap ratio. *)
Theorem score_range :
  (∀ profile job,
     (-30 <= Recommendation.score (_score_job profile job) <= 115)%Q)
  ∧ _score_job profile_lowest job_lowest
    = Recommendation.mk job_lowest (-30)
        "not remote; below compensation target"
  ∧ _score_job profile_highest job_highest
    = Recommendation.mk job_highest (60 + 15 + 10 + 10 + 10 + 5 + 5)
        ("1 skill matches; title matches target; remote friendly; "
         +:+ "location match; meets compensation floor; "
         +:+ "experience level match; industry preference").
Proof.
  split_and!; [apply score_job_bounds|by vm_compute..].
Qed.

(** ** Ranking *)

Section ranking_facts.
Local Open Scope Q_scope.

Lemma float_lt_false x y : float_lt x y = false ↔ y <= x.
Proof. unfold float_lt. by rewrite negb_false_iff, Qle_bool_iff. Qed.

Lemma float_lt_true x y : float_lt x y = true ↔ x < y.
Proof.
  unfold float_lt. rewrite negb_true_iff, <-not_true_iff_false, Qle_bool_iff.
  split; [apply Qnot_le_lt|apply Qlt_not_le].
Qed.

Lemma slice_to_prefix {A} (l : list A) k : ∃ rest, l = slice_to l k ++ rest.
Proof.
  unfold slice_to. destruct (0 <=? k)%Z; eexists; symmetry; apply take_drop.
Qed.

Lemma slice_to_length {A} (l : list A) k :
  (0 ≤ k)%Z → length (slice_to l k) = Z.to_nat (Z.min k (Z.of_nat (length l))).
Proof.
  intros Hk. unfold slice_to.
  destruct (Z.leb_spec 0 k); [|lia]. rewrite length_take. lia.
Qed.

Lemma slice_to_subseteq {A} (l : list A) k : slice_to l k ⊆ l.
Proof. unfold slice_to. destruct (0 <=? k)%Z; apply subseteq_take. Qed.

Lemma sort_by_score_desc_perm scored : sort_by_score_desc scored ≡ₚ scored.
Proof. apply sort_perm. Qed.

Lemma sort_by_score_desc_sorted scored :
  StronglySorted score_ge (sort_by_score_desc scored).
Proof.
  eapply StronglySorted_weaken; [|apply sort_sorted].
  - intros a b. unfold not_after. by rewrite float_lt_false.
  - intros a b. rewrite float_lt_true, float_lt_false. apply Qlt_le_weak.
  - intros a b c. unfold not_after. rewrite !float_lt_false.
    intros ??. by apply Qle_trans with (Recommendation.score b).
Qed.

Lemma sort_by_score_desc_stable s scored :
  with_score s (sort_by_score_desc scored) = with_score s scored.
Proof.
  apply (sort_stable
    (λ a b, float_lt (Recommendation.score b) (Recommendation.score a))).
  intros x y Hx Hy. apply float_lt_false. rewrite Hx, Hy. apply Qle_refl.
Qed.

Variables (profile : CandidateProfile.t).

Lemma deterministic_rank_prefix jobs top_k :
  ∃ rest,
    sort_by_score_desc (_score_job profile <$> jobs)
    = deterministic_rank profile jobs top_k ++ rest.
Proof. apply slice_to_prefix. Qed.

Lemma deterministic_rank_sorted jobs top_k :
  StronglySorted score_ge (deterministic_rank profile jobs top_k).
Proof.
  destruct (deterministic_rank_prefix jobs top_k) as [rest E].
  pose proof (sort_by_score_desc_sorted (_score_job profile <$> jobs)) as H.
  rewrite E in H. by apply StronglySorted_app_1_l in H.
Qed.

Lemma deterministic_rank_length jobs top_k :
  (0 ≤ top_k)%Z →
  length (deterministic_rank profile jobs top_k)
  = Z.to_nat (Z.min top_k (Z.of_nat (length jobs))).
Proof.
  intros Hk. unfold deterministic_rank.
  rewrite slice_to_length by done.
  unfold sort_by_score_desc. by rewrite sort_length, length_fmap.
Qed.

Lemma deterministic_rank_elem_of jobs top_k r :
  r ∈ deterministic_rank profile jobs top_k →
  ∃ job, job ∈ jobs ∧ r = _score_job profile job.
Proof.
  intros Hr%slice_to_subseteq.
  rewrite sort_by_score_desc_perm in Hr.
  apply list_elem_of_fmap in Hr as (job & -> & Hjob). eauto.
Qed.

Lemma jobs_with_score s jobs :
  Recommendation.job <$> with_score s (_score_job profile <$> jobs)
  = filter (λ job, Recommendation.score (_score_job profile job) == s) jobs.
Proof.
  unfold with_score. induction jobs as [|job jobs IH]; [done|].
  rewrite fmap_cons, !filter_cons.
  destruct (decide _); [|done].
  by rewrite fmap_cons, IH, score_job_job.
Qed.

Lemma recommend_jobs_deterministic env reply jobs top_k use_gpt :
  resolved_use_gpt env use_gpt && truthy (getenv env "OPENAI_API_KEY") = false →
  recommend_jobs env reply profile jobs top_k use_gpt
  = Ok (deterministic_rank profile jobs top_k).
Proof. intros H. unfold recommend_jobs. by rewrite H. Qed.
End ranking_facts.

(** C1. On the deterministic path, for every profile, every job list and
    every [top_k] that is not negative, the ranking returns exactly
    [min top_k n] recommendations, [n] the number of jobs, in descending
    order of score. The deterministic path is the result of
    [recommend_jobs] when the external strategy is switched off. *)
Theorem deterministic_rank_length_order (env : gmap string string)
    (reply : gpt_reply) (profile : CandidateProfile.t)
    (jobs : list JobPosting.t) (top_k : Z) :
  (0 ≤ top_k)%Z →
  recommend_jobs env reply profile jobs top_k (Some false)
  = Ok (deterministic_rank profile jobs top_k)
  ∧ Z.of_nat (length (deterministic_rank profile jobs top_k))
    = Z.min top_k (Z.of_nat (length jobs))
  ∧ StronglySorted
      (λ a b, (Recommendation.score b <= Recommendation.score a)%Q)
      (deterministic_rank profile jobs top_k).
Proof.
  intros Hk. split_and!.
  - by apply recommend_jobs_deterministic.
  - rewrite deterministic_rank_length by done. lia.
  - apply deterministic_rank_sorted.
Qed.

(** C10. The sort of the deterministic path is stable and its only key is
    the score: for every score [s], the scored recommendations of score [s]
    are in the same order before and after the sort, and the jobs of score
    [s] of the output are, in their order, the first of the input jobs of
    score [s]. *)
Theorem deterministic_rank_stable (profile : CandidateProfile.t)
    (jobs : list JobPosting.t) (top_k : Z) (s : Q) :
  with_score s (sort_by_score_desc (_score_job profile <$> jobs))
  = with_score s (_score_job profile <$> jobs)
  ∧ ∃ rest,
      filter (λ job, (Recommendation.score (_score_job profile job) == s)%Q)
        jobs
      = (Recommendation.job <$>
           with_score s (deterministic_rank profile jobs top_k)) ++ rest.
Proof.
  split; [apply sort_by_score_desc_stable|].
  destruct (deterministic_rank_prefix profile jobs top_k) as [rest E].
  exists (Recommendation.job <$> with_score s rest).
  rewrite <-jobs_with_score, <-sort_by_score_desc_stable, E.
  unfold with_score. by rewrite filter_app, fmap_app.
Qed.

(** ** External strategy and selector *)

Section external_facts.

Lemma refers_to_job jobs recs :
  (∀ r, r ∈ recs → Recommendation.job r ∈ jobs) → refers_to jobs recs.
Proof.
  intros H r Hr. split; [by apply H|]. by apply list_elem_of_fmap_2, H.
Qed.

Lemma foldl_insert_lookup jobs (m : gmap string JobPosting.t) key job :
  foldl (λ m job, <[JobPosting.id job := job]> m) m jobs !! key = Some job →
  job ∈ jobs ∨ m !! key = Some job.
Proof.
  revert m. induction jobs as [|j jobs IH]; intros m; simpl; [by right|].
  intros [H|H]%IH; [left; by right|].
  destruct (decide (JobPosting.id j = key)) as [<-|Hne].
  - rewrite lookup_insert_eq in H. injection H as ->. left. by left.
  - rewrite lookup_insert_ne in H by done. by right.
Qed.

Lemma foldl_insert_lookup_None jobs (m : gmap string JobPosting.t) key :
  key ∉ JobPosting.id <$> jobs →
  foldl (λ m job, <[JobPosting.id job := job]> m) m jobs !! key = m !! key.
Proof.
  revert m. induction jobs as [|j jobs IH]; intros m; simpl; [done|].
  intros [Hne Hin]%not_elem_of_cons.
  rewrite IH by done. by rewrite lookup_insert_ne.
Qed.

Lemma job_lookup_Some jobs key job :
  job_lookup jobs !! key = Some job → job ∈ jobs.
Proof.
  intros [H|H]%foldl_insert_lookup; [done|]. by rewrite lookup_empty in H.
Qed.

Lemma job_lookup_None jobs key :
  key ∉ JobPosting.id <$> jobs → job_lookup jobs !! key = None.
Proof. intros H. unfold job_lookup. by rewrite foldl_insert_lookup_None. Qed.

Lemma gpt_loop_jobs jobs items recs out :
  (∀ r, r ∈ recs → Recommendation.job r ∈ jobs) →
  gpt_loop (job_lookup jobs) items recs = Ok out →
  ∀ r, r ∈ out → Recommendation.job r ∈ jobs.
Proof.
  revert recs. induction items as [|item items IH]; intros recs Hrecs; simpl.
  - by intros [= <-].
  - destruct item as [|i s rat]; [done|].
    destruct i as [key| |]; simpl; [|by apply IH|done].
    destruct (job_lookup jobs !! key) as [job|] eqn:E; [|by apply IH].
    destruct s as [x|]; simpl; [|done].
    apply IH. intros r [Hr| ->%list_elem_of_singleton]%elem_of_app;
      [by apply Hrecs|].
    simpl. by eapply job_lookup_Some.
Qed.

Lemma gpt_rank_jobs reply profile jobs top_k out :
  _gpt_rank reply profile jobs top_k = Ok out →
  ∀ r, r ∈ out → Recommendation.job r ∈ jobs.
Proof.
  destruct reply as [| |[data|]]; simpl;
    try (by intros [= <-] r ?%elem_of_nil); try done.
  destruct (data_get_recommendations data) as [items|]; simpl; [|done].
  fold (job_lookup jobs).
  destruct (gpt_loop (job_lookup jobs) items []) as [recs|] eqn:E;
    simpl; [|done].
  intros [= <-] r Hr%slice_to_subseteq.
  eapply gpt_loop_jobs; [|exact E|exact Hr]. by intros ? ?%elem_of_nil.
Qed.

Lemma deterministic_rank_jobs profile jobs top_k r :
  r ∈ deterministic_rank profile jobs top_k → Recommendation.job r ∈ jobs.
Proof.
  intros (job & Hjob & ->)%deterministic_rank_elem_of.
  by rewrite score_job_job.
Qed.

Lemma recommend_jobs_cases env reply profile jobs top_k use_gpt :
  recommend_jobs env reply profile jobs top_k use_gpt
  = Ok (deterministic_rank profile jobs top_k)
  ∨ (∃ out, _gpt_rank reply profile jobs top_k = Ok out
            ∧ recommend_jobs env reply profile jobs top_k use_gpt = Ok out).
Proof.
  unfold recommend_jobs.
  destruct (_ && _); [|by left].
  destruct (_gpt_rank reply profile jobs top_k) as [out|]; [|by left].
  destruct (truthy out); [right; eauto|by left].
Qed.
End external_facts.

(** An entry whose id is the id of no job leaves the loop as it found it,
    wherever it stands in the answer. *)
Lemma gpt_loop_drop (jobs : list JobPosting.t) (before after : list gpt_item)
    (item : gpt_item) (recs : list Recommendation.t) :
  unknown_id jobs item →
  gpt_loop (job_lookup jobs) (before ++ item :: after) recs
  = gpt_loop (job_lookup jobs) (before ++ after) recs.
Proof.
  intros Hitem. revert recs.
  induction before as [|x before IH]; intros recs; simpl.
  - destruct item as [|[key| |] s r]; try done; simpl.
    by rewrite job_lookup_None.
  - destruct x as [|i s r]; [done|].
    destruct (lookup_get (job_lookup jobs) i) as [[job|]|]; simpl;
      [|by apply IH|done].
    destruct (float_of s); simpl; [by apply IH|done].
Qed.

(** C2. Referential integrity. Every recommendation that the ranking
    returns is about one of the jobs of the request, so that its job id is
    one of the ids of the input list. It holds for [recommend_jobs] whatever
    path is taken, for the deterministic path and for the external-model
    path. On the latter an entry of the answer whose id is the id of no
    input job (a string that is no job id, or an id that is absent, null, a
    number or a boolean) is dropped without an error, wherever it stands in
    the answer and whatever its score is: the result, an exception raised
    by another entry included, is the one of the answer without that
    entry. *)
Theorem referential_integrity (profile : CandidateProfile.t)
    (jobs : list JobPosting.t) (top_k : Z) :
  (∀ env reply use_gpt out,
     recommend_jobs env reply profile jobs top_k use_gpt = Ok out →
     refers_to jobs out)
  ∧ refers_to jobs (deterministic_rank profile jobs top_k)
  ∧ (∀ reply out,
       _gpt_rank reply profile jobs top_k = Ok out → refers_to jobs out)
  ∧ (∀ before item after,
       unknown_id jobs item →
       _gpt_rank
         (ReplyText (Some (DataDict (Some (before ++ item :: after)))))
         profile jobs top_k
       = _gpt_rank (ReplyText (Some (DataDict (Some (before ++ after)))))
           profile jobs top_k).
Proof.
  split_and!.
  - intros env reply use_gpt out H. apply refers_to_job. intros r Hr.
    destruct (recommend_jobs_cases env reply profile jobs top_k use_gpt)
      as [E|(out' & Hgpt & E)]; rewrite E in H; injection H as <-.
    + by eapply deterministic_rank_jobs.
    + by eapply gpt_rank_jobs.
  - apply refers_to_job. intros r. apply deterministic_rank_jobs.
  - intros reply out H. apply refers_to_job. by eapply gpt_rank_jobs.
  - intros before item after Hitem. simpl. by rewrite gpt_loop_drop.
Qed.

(** C3. [recommend_jobs] never raises: it returns a list for every
    environment, every behaviour of the external service, every profile,
    job list, [top_k] and flag. When the resolved [use_gpt] is true and
    [OPENAI_API_KEY] is not set, the result is the one of the deterministic
    path and is equal to the result with [use_gpt] false. *)
Theorem recommend_jobs_total_fallback (env : gmap string string)
    (reply : gpt_reply) (profile : CandidateProfile.t)
    (jobs : list JobPosting.t) (top_k : Z) (use_gpt : option bool) :
  (∃ out, recommend_jobs env reply profile jobs top_k use_gpt = Ok out)
  ∧ (resolved_use_gpt env use_gpt = true →
     getenv env "OPENAI_API_KEY" = None →
     recommend_jobs env reply profile jobs top_k use_gpt
     = Ok (deterministic_rank profile jobs top_k)
     ∧ recommend_jobs env reply profile jobs top_k use_gpt
       = recommend_jobs env reply profile jobs top_k (Some false)).
Proof.
  split.
  - destruct (recommend_jobs_cases env reply profile jobs top_k use_gpt)
      as [E|(out & _ & E)]; eauto.
  - intros Hflag Hkey.
    rewrite !recommend_jobs_deterministic; [done..|].
    by rewrite Hflag, Hkey.
Qed.

(** ** Scenarios of the specification *)

(** Scenario A: full skill overlap and a title match. *)
Example scenario_a :
  _score_job profile_a job_a
  = Recommendation.mk job_a 75 "2 skill matches; title matches target".
Proof. by vm_compute. Qed.

(** Scenario B: a remote-only profile and a job that is not remote. *)
Example scenario_b :
  _score_job profile_remote job_b = Recommendation.mk job_b (-20) "not remote".
Proof. by vm_compute. Qed.

(** Scenario C: the compensation is below the floor. *)
Example scenario_c :
  _score_job profile_floor job_lowest
  = Recommendation.mk job_lowest (-10) "below compensation target".
Proof. by vm_compute. Qed.

(** Scenario D: no block fires. *)
Example scenario_d :
  _score_job profile_blank job_b = Recommendation.mk job_b 0 "general fit".
Proof. by vm_compute. Qed.

(** Scenario E: the two best of five jobs. *)
Example scenario_e :
  Recommendation.score <$>
    deterministic_rank profile_a [job_b; job_a; job_lowest; job_a; job_b] 2
  = [75%Q; 75%Q].
Proof. by vm_compute. Qed.

(** A skill that the job lists twice counts once: the ratio is taken over
    the normalized job skills. *)
Example scenario_repeated_skill :
  _score_job profile_python job_twice
  = Recommendation.mk job_twice 60 "1 skill matches".
Proof. by vm_compute. Qed.

(** A negative [top_k] drops the last entries of the ranking. *)
Example scenario_negative_top_k :
  Recommendation.job <$> deterministic_rank profile_a [job_b; job_a; job_b] (-1)
  = [job_a; job_b].
Proof. by vm_compute. Qed.

(** ** Instances of the conditional properties *)

Lemma deterministic_rank_length_order_witness :
  Z.of_nat (length (deterministic_rank profile_a [job_b; job_a; job_b] 2))
  = Z.min 2 (Z.of_nat (length [job_b; job_a; job_b])).
Proof.
  apply (deterministic_rank_length_order ∅ NoClientLibrary profile_a
           [job_b; job_a; job_b] 2).
  lia.
Defined.

Lemma referential_integrity_witness :
  refers_to [job_a; job_b]
    [Recommendation.mk job_b 7 "fits"; Recommendation.mk job_a 5 "fine"]
  ∧ _gpt_rank reply_mixed profile_a [job_a; job_b] 5
    = _gpt_rank
        (ReplyText (Some (DataDict (Some
           ([ItemDict (IdStr "b") (ScoreFloat 7) "fits"]
            ++ [ItemDict IdOther (ScoreFloat 3) "no id";
                ItemDict (IdStr "a") (ScoreFloat 5) "fine"])))))
        profile_a [job_a; job_b] 5
  ∧ _gpt_rank
      (ReplyText (Some (DataDict (Some
         ([ItemDict (IdStr "b") (ScoreFloat 7) "fits"]
          ++ ItemDict IdOther (ScoreFloat 3) "no id"
             :: [ItemDict (IdStr "a") (ScoreFloat 5) "fine"])))))
      profile_a [job_a; job_b] 5
    = _gpt_rank
        (ReplyText (Some (DataDict (Some
           ([ItemDict (IdStr "b") (ScoreFloat 7) "fits"]
            ++ [ItemDict (IdStr "a") (ScoreFloat 5) "fine"])))))
        profile_a [job_a; job_b] 5.
Proof.
  destruct (referential_integrity profile_a [job_a; job_b] 5)
    as (Hall & _ & _ & Hdrop).
  split_and!.
  - apply (Hall env_with_key reply_mixed None). by vm_compute.
  - apply (Hdrop [ItemDict (IdStr "b") (ScoreFloat 7) "fits"]
             (ItemDict (IdStr "zzz") ScoreInvalid "unknown")).
    apply (bool_decide_unpack _). by vm_compute.
  - apply (Hdrop [ItemDict (IdStr "b") (ScoreFloat 7) "fits"]
             (ItemDict IdOther (ScoreFloat 3) "no id")).
    exact I.
Defined.

Lemma recommend_jobs_total_fallback_witness :
  recommend_jobs env_without_key reply_two_items profile_a [job_a; job_b] 5 None
  = recommend_jobs env_without_key reply_two_items profile_a [job_a; job_b] 5
      (Some false).
Proof.
  apply (recommend_jobs_total_fallback env_without_key reply_two_items
           profile_a [job_a; job_b] 5 None).
  - by vm_compute.
  - by vm_compute.
Defined.

Lemma skill_overlap_rule_witness :
  Recommendation.rationale (_score_job profile_a job_a)
  = join "; "
      ("2 skill matches" :: (other_rules profile_a job_a (0%Q, [])).2)
  ∧ Recommendation.score (_score_job profile_a job_b)
    = round2 (other_rules profile_a job_b (0%Q, [])).1.
Proof.
  destruct (skill_overlap_rule profile_a job_a) as [Hfires _].
  destruct (skill_overlap_rule profile_a job_b) as [_ Hskips].
  split.
  - apply Hfires. apply (bool_decide_unpack _). by vm_compute.
  - apply Hskips. apply (bool_decide_unpack _). by vm_compute.
Defined.

Lemma compensation_floor_rule_witness :
  Recommendation.rationale (_score_job profile_lowest job_lowest)
  = join "; "
      ((rules_above profile_lowest job_lowest).2
       ++ "below compensation target"
          :: (rules_below profile_lowest job_lowest (0%Q, [])).2)
  ∧ (Recommendation.score
       (_score_job (without_floor profile_highest) job_highest)
     <= Recommendation.score (_score_job profile_highest job_highest))%Q
  ∧ _score_job profile_zero_floor job_lowest
    = _score_job (without_floor profile_zero_floor) job_lowest.
Proof.
  destruct (compensation_floor_rule profile_lowest job_lowest)
    as [_ Hlowest].
  destruct (compensation_floor_rule profile_highest job_highest)
    as [_ Hhighest].
  destruct (compensation_floor_rule profile_zero_floor job_lowest)
    as [Hzero _].
  split_and!.
  - apply (Hlowest 100000%Q 80000%Q); by vm_compute.
  - apply (Hhighest 100000%Q 120000%Q); by vm_compute.
  - apply Hzero. intros [(x & [= <-] & Hx) _]. by apply Hx.
Defined.

Lemma skill_monotone_witness :
  (Recommendation.score (_score_job profile_sql job_a)
   <= Recommendation.score
        (_score_job (with_skill profile_sql " Python ") job_a))%Q.
Proof.
  apply (skill_monotone profile_sql job_a " Python ").
  - apply (bool_decide_unpack _). by vm_compute.
  - apply (bool_decide_unpack _). by vm_compute.
Defined.

(** * Further properties *)

(** ** Normalizer *)

Lemma canon_lower_token t : canon (lower t) = canon t.
Proof. unfold canon. by rewrite strip_lower, lower_idemp. Qed.

Lemma canon_strip_token t : canon (strip t) = canon t.
Proof. unfold canon. by rewrite strip_idemp. Qed.

Lemma canon_set_fmap (f : string → string) (l : list string) :
  (∀ t, canon (f t) = canon t) →
  (∀ t, strip (f t) = EmptyString ↔ strip t = EmptyString) →
  canon_set (f <$> l) = canon_set l.
Proof.
  intros Hc He. apply set_eq. intros s. rewrite !elem_of_canon_set. split.
  - intros (t' & (t & -> & Ht)%list_elem_of_fmap & Hne & ->).
    exists t. rewrite He in Hne. by rewrite Hc.
  - intros (t & Ht & Hne & ->). exists (f t).
    rewrite He, Hc. split_and!; [by apply list_elem_of_fmap_2|done..].
Qed.

(** X1. The Normalizer sees a token list as a set: two lists with the same
    members, in any order and with any repetition, have the same normal
    form. *)
Theorem normalize_same_members (l1 l2 : list string) :
  (∀ t, t ∈ l1 ↔ t ∈ l2) → _normalize l1 = _normalize l2.
Proof.
  intros H. rewrite !normalize_unfold. f_equal. f_equal.
  apply set_eq. intros s. rewrite !elem_of_canon_set.
  split; intros (t & Ht & ?); exists t; (split; [by apply H|done]).
Qed.

(** X2. The Normalizer does not see the case of a token or the whitespace
    around it: lower-casing every token, or trimming every token, before
    the call leaves the result unchanged. *)
Theorem normalize_case_and_trim (tokens : list string) :
  _normalize (lower <$> tokens) = _normalize tokens
  ∧ _normalize (strip <$> tokens) = _normalize tokens.
Proof.
  rewrite !normalize_unfold. split; f_equal; f_equal.
  - apply canon_set_fmap; [apply canon_lower_token|].
    intros t. by rewrite strip_lower, lower_empty.
  - apply canon_set_fmap; [apply canon_strip_token|].
    intros t. by rewrite strip_idemp.
Qed.

Lemma normalize_same_members_witness :
  _normalize ["b"; "a"; "b"] = _normalize ["a"; "b"].
Proof.
  apply normalize_same_members. intros t.
  rewrite !elem_of_cons, !elem_of_nil. tauto.
Defined.

(** ** Words and trimmed strings *)

Lemma app_String c a b : String c a +:+ b = String c (a +:+ b).
Proof. reflexivity. Qed.

Lemma has_space_app a b : has_space (a +:+ b) = has_space a || has_space b.
Proof.
  induction a as [|c a IH]; [done|].
  rewrite app_String. simpl. by rewrite IH, orb_assoc.
Qed.

Lemma has_space_lower s : has_space (lower s) = has_space s.
Proof.
  induction s as [|c s IH]; simpl; [done|].
  by rewrite isspace_lower_char, IH.
Qed.

Lemma rstrip_no_space s : has_space s = false → rstrip s = s.
Proof.
  induction s as [|c s IH]; simpl; [done|].
  intros [Hc Hs]%orb_false_elim. rewrite (IH Hs), Hc. by destruct s.
Qed.

Lemma strip_no_space s : has_space s = false → strip s = s.
Proof.
  intros H. unfold strip. assert (lstrip s = s) as ->.
  { destruct s as [|c s]; simpl in *; [done|].
    apply orb_false_elim in H as [-> _]. done. }
  by apply rstrip_no_space.
Qed.

Lemma split_go_words cur s t :
  has_space cur = false → t ∈ split_go cur s →
  has_space t = false ∧ t ≠ EmptyString.
Proof.
  revert cur. induction s as [|c s IH]; intros cur Hcur; simpl.
  - destruct (decide (cur = EmptyString)); [by intros ?%elem_of_nil|].
    by intros ->%list_elem_of_singleton.
  - destruct (isspace c) eqn:Ec.
    + intros [Ht|Ht]%elem_of_app; [|by apply (IH EmptyString)].
      destruct (decide (cur = EmptyString)); [by apply elem_of_nil in Ht|].
      by apply list_elem_of_singleton in Ht as ->.
    + apply IH. rewrite has_space_app. simpl. by rewrite Hcur, Ec.
Qed.

Lemma split_words s t :
  t ∈ split s → has_space t = false ∧ t ≠ EmptyString.
Proof. by apply split_go_words. Qed.

Lemma elem_of_normalize_split title x :
  x ∈ _normalize (split title) ↔ ∃ w, w ∈ split title ∧ x = lower w.
Proof.
  rewrite elem_of_normalize, elem_of_canon_set. split.
  - intros (w & Hw & _ & ->). exists w. split; [done|].
    destruct (split_words _ _ Hw) as [Hs _].
    unfold canon. by rewrite strip_no_space.
  - intros (w & Hw & ->). exists w.
    destruct (split_words _ _ Hw) as [Hs Hne].
    unfold canon. by rewrite strip_no_space.
Qed.

Lemma lstrip_length s :
  lstrip s = s ∨ (String.length (lstrip s) < String.length s)%nat.
Proof.
  induction s as [|c s IH]; simpl; [by left|].
  destruct (isspace c); [|by left]. right. destruct IH as [->|]; lia.
Qed.

Lemma rstrip_length s :
  rstrip s = s ∨ (String.length (rstrip s) < String.length s)%nat.
Proof.
  induction s as [|c s IH]; simpl; [by left|].
  destruct IH as [->|Hlt].
  - destruct s; [|by left]. destruct (isspace c); [right; simpl; lia|by left].
  - right. destruct (rstrip s); [destruct (isspace c)|]; simpl in *; lia.
Qed.

Lemma strip_length s :
  strip s = s ∨ (String.length (strip s) < String.length s)%nat.
Proof.
  unfold strip. destruct (lstrip_length s) as [->|Hl]; [apply rstrip_length|].
  right. destruct (rstrip_length (lstrip s)) as [->|]; lia.
Qed.

Lemma lower_length s : String.length (lower s) = String.length s.
Proof. induction s as [|c s IH]; simpl; [done|]. by rewrite IH. Qed.

(** A member of a normalized list is the lower-cased form of trimmed
    strings only. *)
Lemma normalize_elem_trimmed s tokens :
  lower s ∈ _normalize tokens → strip s = s.
Proof.
  intros [Hc _]%normalize_elem_canon.
  destruct (strip_length s) as [|Hlt]; [done|].
  unfold canon in Hc. rewrite strip_lower, lower_idemp in Hc.
  apply (f_equal String.length) in Hc. rewrite !lower_length in Hc. lia.
Qed.

(** ** The title block *)

Section title_facts.
Variables (profile : CandidateProfile.t) (job : JobPosting.t).

Lemma title_overlap_spec :
  list_to_set (C := gset string)
    (_normalize (CandidateProfile.desired_titles profile))
  ∩ list_to_set (_normalize (split (JobPosting.title job))) ≠ ∅
  ↔ title_word_match profile job.
Proof.
  unfold title_word_match. split.
  - intros (x & Hx)%set_choose_L. revert Hx.
    rewrite elem_of_intersection, !elem_of_list_to_set.
    rewrite elem_of_normalize, elem_of_canon_set, elem_of_normalize_split.
    intros [(d & Hd & Hne & ->) (w & Hw & E)].
    exists d, w. split_and!; [done..| |done].
    apply not_true_iff_false. by rewrite <-strip_empty.
  - intros (d & w & Hd & Hw & Hne & E) Hempty.
    apply (not_elem_of_empty (C := gset string) (lower w)).
    rewrite <-Hempty.
    rewrite elem_of_intersection, !elem_of_list_to_set.
    rewrite elem_of_normalize, elem_of_canon_set, elem_of_normalize_split.
    split; [|by exists w]. exists d. split_and!; [done| |done].
    apply not_true_iff_false in Hne. by rewrite <-strip_empty in Hne.
Qed.

Lemma title_rule_overlap st :
  title_rule profile job st
  = if truthy
         (list_to_set (C := gset string)
            (_normalize (CandidateProfile.desired_titles profile))
          ∩ list_to_set (_normalize (split (JobPosting.title job))))
    then bump 15 "title matches target" st
    else st.
Proof.
  unfold title_rule.
  destruct (truthy (list_to_set _)) eqn:E; [done|].
  apply not_true_iff_false in E. rewrite truthy_set_spec in E.
  apply dec_stable in E. rewrite E, (left_absorb_L ∅ (∩)).
  assert (truthy (∅ : gset string) = false) as ->; [|done].
  by apply truthy_set_size.
Qed.

Lemma title_rule_match st :
  title_word_match profile job →
  title_rule profile job st = bump 15 "title matches target" st.
Proof.
  rewrite title_rule_overlap, <-title_overlap_spec.
  intros H%truthy_set_spec. by rewrite H.
Qed.

Lemma title_rule_no_match st :
  ¬ title_word_match profile job → title_rule profile job st = st.
Proof.
  rewrite title_rule_overlap, <-title_overlap_spec.
  intros H. destruct (truthy _) eqn:E; [|done].
  by apply truthy_set_spec in E.
Qed.
End title_facts.

(** X3. The title block adds 15 and appends ["title matches target"]
    exactly when some desired title that is not blank equals, once trimmed
    and lower-cased, a lower-cased word of the job title (the words are the
    runs between whitespace); in every other case it changes nothing. *)
Theorem title_rule_words (profile : CandidateProfile.t) (job : JobPosting.t)
    (st : locals) :
  (title_word_match profile job →
     title_rule profile job st = bump 15 "title matches target" st)
  ∧ (¬ title_word_match profile job → title_rule profile job st = st).
Proof. split; [apply title_rule_match|apply title_rule_no_match]. Qed.

(** X4. A desired title of several words never matches: when every desired
    title has whitespace inside after trimming, the title block changes
    nothing, whatever the job title is. *)
Theorem title_rule_several_words (profile : CandidateProfile.t)
    (job : JobPosting.t) (st : locals) :
  (∀ d, d ∈ CandidateProfile.desired_titles profile →
        has_space (strip d) = true) →
  title_rule profile job st = st.
Proof.
  intros Hall. apply title_rule_no_match.
  intros (d & w & Hd & Hw & _ & E).
  destruct (split_words _ _ Hw) as [Hs _].
  apply (f_equal has_space) in E. rewrite !has_space_lower in E.
  rewrite (Hall d Hd), Hs in E. done.
Qed.

(** ** The industry block *)

(** X5. The industry of the job is lower-cased but not trimmed, while the
    industries of the profile are trimmed: when the industry of the job has
    whitespace at either end, the industry block changes nothing. *)
Theorem industry_rule_untrimmed (profile : CandidateProfile.t)
    (job : JobPosting.t) (ind : string) (st : locals) :
  JobPosting.industry job = Some ind →
  strip ind ≠ ind →
  industry_rule profile job st = st.
Proof.
  intros Hind Hne. unfold industry_rule. rewrite Hind.
  destruct (CandidateProfile.industries profile) as [inds|]; [|done].
  destruct (truthy inds && truthy ind); [|done].
  destruct (decide (lower ind ∈ _normalize inds)) as [Hin|]; [|done].
  by apply normalize_elem_trimmed in Hin.
Qed.

(** ** The location block *)

Lemma prefix_spec n h : String.prefix n h = true ↔ ∃ post, h = n +:+ post.
Proof.
  revert h. induction n as [|a n IH]; intros h.
  - destruct h; simpl; (split; [intros _; eauto|done]).
  - destruct h as [|b h]; simpl.
    + split; [done|]. by intros (post & ?).
    + destruct (ascii_dec a b) as [->|Hne].
      * rewrite IH. split; intros (post & E); exists post.
        -- by rewrite app_String, E.
        -- rewrite app_String in E. by injection E.
      * split; [done|]. intros (post & E). rewrite app_String in E.
        injection E as -> _. done.
Qed.

Lemma contains_nil n : contains n EmptyString = String.prefix n EmptyString.
Proof. simpl. by rewrite orb_false_r. Qed.

Lemma contains_cons n c h :
  contains n (String c h) = String.prefix n (String c h) || contains n h.
Proof. reflexivity. Qed.

Lemma contains_spec n h :
  contains n h = true ↔ ∃ pre post, h = pre +:+ n +:+ post.
Proof.
  induction h as [|c h IH].
  - rewrite contains_nil, prefix_spec. split.
    + intros (post & E). by exists EmptyString, post.
    + intros (pre & post & E). destruct pre; [by exists post|done].
  - rewrite contains_cons, orb_true_iff, prefix_spec, IH. split.
    + intros [(post & E)|(pre & post & E)].
      * by exists EmptyString, post.
      * exists (String c pre), post. by rewrite app_String, E.
    + intros (pre & post & E). destruct pre as [|c' pre].
      * left. by exists post.
      * right. rewrite app_String in E. injection E as -> E. eauto.
Qed.

Lemma location_rule_match profile job st :
  location_match profile job →
  location_rule profile job st = bump 10 "location match" st.
Proof.
  intros (ploc & jloc & pre & post & Hp & Hj & Hne & E).
  unfold location_rule. rewrite Hp, Hj.
  assert (truthy ploc = true) as ->.
  { apply Is_true_true. by apply truthy_str_spec. }
  assert (truthy jloc = true) as ->.
  { apply Is_true_true. apply truthy_str_spec. intros ->.
    destruct pre; [|done]. destruct ploc; done. }
  simpl. assert (contains (lower ploc) (lower jloc) = true) as ->; [|done].
  apply contains_spec. eauto.
Qed.

Lemma location_rule_no_match profile job st :
  ¬ location_match profile job → location_rule profile job st = st.
Proof.
  intros Hno. unfold location_rule.
  destruct (CandidateProfile.location profile) as [ploc|] eqn:Hp; [|done].
  destruct (JobPosting.location job) as [jloc|] eqn:Hj; [|done].
  destruct (truthy ploc) eqn:Ep; [|done].
  destruct (truthy jloc); [|done]. simpl.
  destruct (contains (lower ploc) (lower jloc)) eqn:Ec; [|done].
  destruct Hno. apply contains_spec in Ec as (pre & post & E).
  exists ploc, jloc, pre, post. split_and!; [done..| |done].
  apply truthy_str_spec. by rewrite Ep.
Qed.

(** X6. The location block adds 10 and appends ["location match"] exactly
    when both locations are present, the one of the profile is not empty
    and, both lower-cased, it occurs as a contiguous part of the one of the
    job; in every other case it changes nothing (there is no penalty). *)
Theorem location_rule_substring (profile : CandidateProfile.t)
    (job : JobPosting.t) (st : locals) :
  (location_match profile job →
     location_rule profile job st = bump 10 "location match" st)
  ∧ (¬ location_match profile job → location_rule profile job st = st).
Proof. split; [apply location_rule_match|apply location_rule_no_match]. Qed.

(** ** The remote block *)

Lemma rules_below_remote_adds profile job :
  ∃ d bits, adds (rules_below_remote profile job) d bits.
Proof.
  pose proof (contributes_compose _ _ _ _ _ _
    (location_rule_contributes profile job)
    (compensation_rule_contributes profile job)) as H1.
  pose proof (contributes_compose _ _ _ _ _ _ H1
    (experience_rule_contributes profile job)) as H2.
  destruct (contributes_compose _ _ _ _ _ _ H2
    (industry_rule_contributes profile job)) as (d & bits & H & _).
  by exists d, bits.
Qed.

Lemma run_rules_remote profile job b :
  run_rules profile (with_remote job b)
  = rules_below_remote profile job
      (remote_rule profile (with_remote job b)
         (title_rule profile job (skill_rule profile job (0%Q, [])))).
Proof. reflexivity. Qed.

Lemma round_half_even_near (x : Q) :
  (x - (1 # 2) <= inject_Z (round_half_even x) <= x + (1 # 2))%Q.
Proof.
  pose proof (Qfloor_le x) as Hlo. pose proof (Qlt_floor x) as Hhi.
  rewrite inject_Z_plus in Hhi. change (inject_Z 1) with 1%Q in Hhi.
  unfold round_half_even.
  destruct (Qcompare_spec (x - inject_Z (Qfloor x)) (1 # 2));
    try (destruct (Z.even (Qfloor x)));
    rewrite ?inject_Z_plus; change (inject_Z 1) with 1%Q; lra.
Qed.

Lemma round2_near (x : Q) :
  (x - (1 # 200) <= round2 x <= x + (1 # 200))%Q.
Proof.
  pose proof (round_half_even_near (x * 100)) as H.
  unfold round2. rewrite Qred_correct.
  assert (round_half_even (x * 100) # 100
          == inject_Z (round_half_even (x * 100)) * (1 # 100))%Q as ->.
  { unfold Qeq. simpl. lia. }
  lra.
Qed.

(** X7. For a profile that is remote only, the remote block adds 10 with
    ["remote friendly"] for a remote job and subtracts 20 with
    ["not remote"] for a job that is not remote, and the remote job gets a
    strictly higher score than the same job that is not remote. For a
    profile that is not remote only, the [remote] flag of the job changes
    neither the score nor the rationale. *)
Theorem remote_rule_order (profile : CandidateProfile.t) (job : JobPosting.t) :
  (CandidateProfile.remote_only profile = true →
     (∀ st, remote_rule profile (with_remote job true) st
            = bump 10 "remote friendly" st)
     ∧ (∀ st, remote_rule profile (with_remote job false) st
              = bump (-20) "not remote" st)
     ∧ (Recommendation.score (_score_job profile (with_remote job false))
        < Recommendation.score (_score_job profile (with_remote job true)))%Q)
  ∧ (CandidateProfile.remote_only profile = false →
     ∀ b, run_rules profile (with_remote job b) = run_rules profile job).
Proof.
  split.
  - intros Hro. split_and!.
    + intros st. unfold remote_rule. by rewrite Hro.
    + intros st. unfold remote_rule. by rewrite Hro.
    + rewrite !score_job_score, !run_rules_remote.
      destruct (rules_below_remote_adds profile job) as (d & bits & Hadd).
      unfold remote_rule. rewrite Hro. simpl.
      set (st := title_rule profile job (skill_rule profile job (0%Q, []))).
      destruct (Hadd (bump 10 "remote friendly" st)) as [E1 _].
      destruct (Hadd (bump (-20) "not remote" st)) as [E2 _].
      rewrite E1, E2. simpl.
      pose proof (round2_near (st.1 + 10 + d)).
      pose proof (round2_near (st.1 + -20 + d)). lra.
  - intros Hro b. rewrite run_rules_remote.
    unfold remote_rule. rewrite Hro. unfold run_rules, remote_rule.
    by rewrite Hro.
Qed.

(** ** The rationale *)

Lemma length_app (a b : string) :
  String.length (a +:+ b) = (String.length a + String.length b)%nat.
Proof.
  induction a as [|c a IH]; [done|]. rewrite app_String. simpl. by rewrite IH.
Qed.

Lemma fragment_long (bit : string) : fragment bit → (10 ≤ String.length bit)%nat.
Proof. unfold fragment. lia. Qed.

Lemma block_skip : block (λ st, st).
Proof. intros st. by left. Qed.

Lemma block_bump d bit : fragment bit → block (bump d bit).
Proof. intros H st. right. eauto. Qed.

Ltac solve_block :=
  repeat case_match;
  first [ apply block_skip
        | apply block_bump; unfold fragment; simpl; lia ].

Section rationale_facts.
Variables (profile : CandidateProfile.t) (job : JobPosting.t).

Lemma skill_rule_block : block (skill_rule profile job).
Proof.
  unfold skill_rule. destruct (truthy _); [|apply block_skip].
  apply block_bump. unfold fragment. rewrite length_app. simpl. lia.
Qed.

Lemma title_rule_block : block (title_rule profile job).
Proof. unfold title_rule. solve_block. Qed.

Lemma remote_rule_block : block (remote_rule profile job).
Proof. unfold remote_rule. solve_block. Qed.

Lemma location_rule_block : block (location_rule profile job).
Proof. unfold location_rule. solve_block. Qed.

Lemma compensation_rule_block : block (compensation_rule profile job).
Proof. unfold compensation_rule. solve_block. Qed.

Lemma experience_rule_block : block (experience_rule profile job).
Proof. unfold experience_rule. solve_block. Qed.

Lemma industry_rule_block : block (industry_rule profile job).
Proof. unfold industry_rule. solve_block. Qed.

Lemma block_keeps rule st :
  block rule → untouched_or_explained st → untouched_or_explained (rule st).
Proof.
  intros Hb [Hf H0]. destruct (Hb st) as [->|(d & bit & Hbit & ->)]; [done|].
  split; simpl.
  - apply Forall_app. split; [done|]. by constructor.
  - by intros ?%app_nil_r_inv.
Qed.

Lemma run_rules_explained : untouched_or_explained (run_rules profile job).
Proof.
  unfold run_rules.
  apply block_keeps; [apply industry_rule_block|].
  apply block_keeps; [apply experience_rule_block|].
  apply block_keeps; [apply compensation_rule_block|].
  apply block_keeps; [apply location_rule_block|].
  apply block_keeps; [apply remote_rule_block|].
  apply block_keeps; [apply title_rule_block|].
  apply block_keeps; [apply skill_rule_block|].
  split; [constructor|done].
Qed.

Lemma join_fragment bit bits :
  Forall fragment (bit :: bits) → fragment (join "; " (bit :: bits)).
Proof.
  revert bit. induction bits as [|bit' bits IH]; intros bit Hall.
  - by apply Forall_cons_1 in Hall as [? _].
  - apply Forall_cons_1 in Hall as [Hbit Hall].
    apply IH, fragment_long in Hall. apply fragment_long in Hbit.
    change (join "; " (bit :: bit' :: bits))
      with (bit +:+ "; " +:+ join "; " (bit' :: bits)).
    right. rewrite !length_app. change (String.length "; ") with 2%nat. lia.
Qed.
End rationale_facts.

(** X8. The rationale is the fallback ["general fit"] exactly when no block
    fired, and a recommendation with that rationale has score 0. *)
Theorem rationale_fallback (profile : CandidateProfile.t)
    (job : JobPosting.t) :
  (Recommendation.rationale (_score_job profile job) = "general fit"
   ↔ (run_rules profile job).2 = [])
  ∧ (Recommendation.rationale (_score_job profile job) = "general fit" →
     Recommendation.score (_score_job profile job) = 0%Q).
Proof.
  pose proof (run_rules_explained profile job) as [Hf H0].
  unfold _score_job. destruct (run_rules profile job) as [score bits].
  simpl in *. destruct bits as [|bit bits]; simpl.
  - specialize (H0 eq_refl). injection H0 as ->. by split.
  - apply join_fragment in Hf.
    assert (join "; " (bit :: bits) ≠ "general fit") as Hne.
    { intros E. rewrite E in Hf. unfold fragment in Hf. simpl in Hf. lia. }
    split; [split|]; done.
Qed.

(** ** The skill block *)

(** X9. Full coverage: when the job has at least one normalized skill and
    every normalized skill of the job is a normalized skill of the profile,
    the skill block adds exactly 60, whatever other skills the profile
    has. *)
Theorem skill_full_coverage (profile : CandidateProfile.t)
    (job : JobPosting.t) :
  _normalize (JobPosting.skills job) ≠ [] →
  (∀ s, s ∈ _normalize (JobPosting.skills job) →
        s ∈ _normalize (CandidateProfile.skills profile)) →
  ((run_rules profile job).1
   == 60 + (other_rules profile job (0%Q, [])).1)%Q.
Proof.
  intros Hne Hsub. rewrite run_rules_score.
  assert (overlap profile job = job_skills job) as Ho.
  { unfold overlap, profile_skills, job_skills. apply set_eq. intros s.
    rewrite elem_of_intersection, !elem_of_list_to_set.
    split; [by intros [_ ?]|]. intros Hs. split; [by apply Hsub|done]. }
  assert (1 ≤ size (job_skills job))%nat as Hm.
  { destruct (_normalize (JobPosting.skills job)) as [|s l] eqn:E; [done|].
    assert (s ∈ job_skills job) as Hs.
    { unfold job_skills. rewrite E, elem_of_list_to_set. by left. }
    destruct (size (job_skills job)) eqn:Es; [|lia].
    apply size_empty_iff in Es. rewrite Es in Hs.
    by apply not_elem_of_empty in Hs. }
  unfold overlap_ratio. rewrite Ho, Nat.max_l by done.
  assert (¬ (inject_Z (Z.of_nat (size (job_skills job))) == 0)%Q) as Hz.
  { change 0%Q with (inject_Z 0). rewrite inject_Z_injective. lia. }
  apply Qplus_inj_r. field. done.
Qed.

(** ** The deterministic ranking *)

Lemma slice_to_all {A} (l : list A) k :
  (Z.of_nat (length l) ≤ k)%Z → slice_to l k = l.
Proof.
  intros Hk. unfold slice_to. destruct (Z.leb_spec 0 k); [|lia].
  apply take_ge. lia.
Qed.

Lemma slice_to_length_le {A} (l : list A) k :
  (0 ≤ k)%Z → (Z.of_nat (length (slice_to l k)) ≤ k)%Z.
Proof. intros Hk. rewrite slice_to_length by done. lia. Qed.

Lemma jobs_of_scored profile (jobs : list JobPosting.t) :
  Recommendation.job <$> (_score_job profile <$> jobs) = jobs.
Proof.
  induction jobs as [|job jobs IH]; [done|].
  by rewrite !fmap_cons, score_job_job, IH.
Qed.

(** X10. The deterministic ranking loses and invents nothing, and keeps the
    best: the ranking followed by some list [rest] is a rearrangement of the
    scored jobs, and no recommendation of [rest] has a higher score than a
    recommendation of the ranking. *)
Theorem deterministic_rank_best (profile : CandidateProfile.t)
    (jobs : list JobPosting.t) (top_k : Z) :
  ∃ rest,
    deterministic_rank profile jobs top_k ++ rest
    ≡ₚ _score_job profile <$> jobs
    ∧ ∀ r r', r ∈ deterministic_rank profile jobs top_k → r' ∈ rest →
        (Recommendation.score r' <= Recommendation.score r)%Q.
Proof.
  destruct (deterministic_rank_prefix profile jobs top_k) as [rest E].
  exists rest. split.
  - by rewrite <-E, sort_by_score_desc_perm.
  - intros r r' Hr Hr'.
    pose proof (sort_by_score_desc_sorted (_score_job profile <$> jobs)) as H.
    rewrite E in H.
    apply (StronglySorted_app_1_elem_of _ _ _ _ _ H Hr Hr').
Qed.

(** X11. When [top_k] is at least the number of jobs, the deterministic
    ranking returns every job of the request exactly once: its jobs are a
    rearrangement of the input list. *)
Theorem deterministic_rank_all (profile : CandidateProfile.t)
    (jobs : list JobPosting.t) (top_k : Z) :
  (Z.of_nat (length jobs) ≤ top_k)%Z →
  Recommendation.job <$> deterministic_rank profile jobs top_k ≡ₚ jobs.
Proof.
  intros Hk. unfold deterministic_rank. rewrite slice_to_all.
  - by rewrite sort_by_score_desc_perm, jobs_of_scored.
  - unfold sort_by_score_desc. by rewrite sort_length, length_fmap.
Qed.

(** X12. A negative [top_k] is not an error and does not give an empty
    result: the deterministic ranking is the sorted list of the scored jobs
    without its last [- top_k] entries (without all of them when there are
    fewer), so that [max 0 (n + top_k)] recommendations are returned for
    [n] jobs and the ones left out are the lowest of the order. *)
Theorem deterministic_rank_negative (profile : CandidateProfile.t)
    (jobs : list JobPosting.t) (top_k : Z) :
  (top_k < 0)%Z →
  ∃ rest,
    sort_by_score_desc (_score_job profile <$> jobs)
    = deterministic_rank profile jobs top_k ++ rest
    ∧ Z.of_nat (length rest) = Z.min (Z.of_nat (length jobs)) (- top_k)
    ∧ Z.of_nat (length (deterministic_rank profile jobs top_k))
      = Z.max 0 (Z.of_nat (length jobs) + top_k).
Proof.
  intros Hk. unfold deterministic_rank, slice_to.
  destruct (Z.leb_spec 0 top_k); [lia|].
  set (sorted := sort_by_score_desc (_score_job profile <$> jobs)).
  assert (length sorted = length jobs) as Hlen.
  { unfold sorted, sort_by_score_desc. by rewrite sort_length, length_fmap. }
  exists (drop (length sorted - Z.to_nat (- top_k)) sorted). split_and!.
  - by rewrite take_drop.
  - rewrite length_drop, Hlen. lia.
  - rewrite length_take, Hlen. lia.
Qed.

(** ** The external strategy *)

Lemma job_lookup_snoc jobs job :
  job_lookup (jobs ++ [job]) = <[JobPosting.id job := job]> (job_lookup jobs).
Proof. unfold job_lookup. by rewrite foldl_snoc. Qed.

(** X13. When several jobs of the request have the same id, the dictionary
    of the external strategy resolves the id to the last of them; an id of
    no job resolves to nothing. *)
Theorem job_lookup_last (jobs : list JobPosting.t) (key : string) :
  job_lookup jobs !! key
  = last (filter (λ job, JobPosting.id job = key) jobs).
Proof.
  induction jobs as [|job jobs IH] using rev_ind; [done|].
  rewrite job_lookup_snoc, filter_app, filter_cons, filter_nil.
  destruct (decide (JobPosting.id job = key)) as [<-|Hne].
  - by rewrite lookup_insert_eq, last_snoc.
  - by rewrite lookup_insert_ne, app_nil_r.
Qed.

Lemma gpt_loop_well_formed lookup items recs :
  Forall well_formed items →
  gpt_loop lookup items recs
  = Ok (recs ++ omap (item_recommendation lookup) items).
Proof.
  intros Hall. revert recs.
  induction Hall as [|item items Hitem _ IH]; intros recs; simpl.
  - by rewrite app_nil_r.
  - destruct item as [|[key| |] [x|] r]; try done; simpl.
    + destruct (lookup !! key) as [job|]; simpl; [|apply IH].
      by rewrite IH, <-app_assoc.
    + apply IH.
Qed.

(** X14. For an answer whose entries are all well formed, the external
    strategy returns, in the order of the answer and without sorting, one
    recommendation for each entry whose id is the id of a job, with the
    score and the rationale of the entry, cut to [top_k]. *)
Theorem gpt_rank_well_formed (profile : CandidateProfile.t)
    (jobs : list JobPosting.t) (top_k : Z) (items : list gpt_item) :
  Forall well_formed items →
  _gpt_rank (ReplyText (Some (DataDict (Some items)))) profile jobs top_k
  = Ok (slice_to (omap (item_recommendation (job_lookup jobs)) items) top_k).
Proof.
  intros Hall. simpl. by rewrite gpt_loop_well_formed.
Qed.

Lemma gpt_loop_not_dict lookup items recs :
  ItemNotDict ∈ items → gpt_loop lookup items recs = Raise.
Proof.
  revert recs. induction items as [|item items IH]; intros recs.
  - by intros ?%elem_of_nil.
  - intros [<-|Hin]%elem_of_cons; [done|]. simpl.
    destruct item as [|i s r]; [done|].
    destruct (lookup_get lookup i) as [[job|]|]; simpl; [|by apply IH|done].
    destruct (float_of s); simpl; [by apply IH|done].
Qed.

Lemma gpt_loop_unhashable lookup items recs s r :
  ItemDict IdUnhashable s r ∈ items → gpt_loop lookup items recs = Raise.
Proof.
  revert recs. induction items as [|item items IH]; intros recs.
  - by intros ?%elem_of_nil.
  - intros [<-|Hin]%elem_of_cons; [done|]. simpl.
    destruct item as [|i s' r']; [done|].
    destruct (lookup_get lookup i) as [[job|]|]; simpl; [|by apply IH|done].
    destruct (float_of s'); simpl; [by apply IH|done].
Qed.

Lemma gpt_loop_unknown jobs items recs :
  Forall (unknown_id jobs) items →
  gpt_loop (job_lookup jobs) items recs = Ok recs.
Proof.
  induction 1 as [|item items Hitem _ IH]; [done|]. simpl.
  destruct item as [|[key| |] s r]; try done; simpl.
  by rewrite job_lookup_None.
Qed.

Lemma slice_to_nil {A} k : slice_to (@nil A) k = [].
Proof. unfold slice_to. destruct (0 <=? k)%Z; apply take_nil. Qed.

Lemma gpt_rank_unusable reply profile jobs top_k :
  unusable jobs reply →
  _gpt_rank reply profile jobs top_k = Raise
  ∨ _gpt_rank reply profile jobs top_k = Ok [].
Proof.
  destruct 1; simpl; eauto.
  - left. by rewrite gpt_loop_not_dict.
  - left. by erewrite gpt_loop_unhashable.
  - right. rewrite gpt_loop_unknown by done. simpl. by rewrite slice_to_nil.
Qed.

Lemma recommend_jobs_fallback env reply profile jobs top_k use_gpt :
  _gpt_rank reply profile jobs top_k = Raise
  ∨ _gpt_rank reply profile jobs top_k = Ok [] →
  recommend_jobs env reply profile jobs top_k use_gpt
  = Ok (deterministic_rank profile jobs top_k).
Proof.
  intros H. unfold recommend_jobs.
  destruct (_ && _); [|done]. by destruct H as [->| ->].
Qed.

(** ** The selector *)

(** X15. Whatever way the external strategy is unusable: the client
    library is missing, the service fails, the answer is not JSON, is not an
    object, holds no list, holds an entry that is not an object or an id
    that cannot be a key, or names only ids of no job; the public operation
    returns the deterministic ranking, for every configuration and flag. *)
Theorem recommend_jobs_unusable (env : gmap string string)
    (reply : gpt_reply) (profile : CandidateProfile.t)
    (jobs : list JobPosting.t) (top_k : Z) (use_gpt : option bool) :
  unusable jobs reply →
  recommend_jobs env reply profile jobs top_k use_gpt
  = Ok (deterministic_rank profile jobs top_k).
Proof.
  intros H. by apply recommend_jobs_fallback, gpt_rank_unusable.
Qed.

Lemma gpt_rank_length_le reply profile jobs top_k out :
  (0 ≤ top_k)%Z →
  _gpt_rank reply profile jobs top_k = Ok out →
  (Z.of_nat (length out) ≤ top_k)%Z.
Proof.
  intros Hk. destruct reply as [| |[data|]]; simpl;
    try (by intros [= <-]; simpl; lia); try done.
  destruct (data_get_recommendations data) as [items|]; simpl; [|done].
  destruct (gpt_loop (job_lookup jobs) items []) as [recs|]; simpl; [|done].
  intros [= <-]. by apply slice_to_length_le.
Qed.

Lemma recommend_jobs_length_le env reply profile jobs top_k use_gpt out :
  (0 ≤ top_k)%Z →
  recommend_jobs env reply profile jobs top_k use_gpt = Ok out →
  (Z.of_nat (length out) ≤ top_k)%Z.
Proof.
  intros Hk H.
  destruct (recommend_jobs_cases env reply profile jobs top_k use_gpt)
    as [E|(out' & Hgpt & E)]; rewrite E in H; injection H as <-.
  - by apply slice_to_length_le.
  - by eapply gpt_rank_length_le.
Qed.

(** X16. On every path, the deterministic one and the external one, the
    public operation returns at most [top_k] recommendations when [top_k] is
    not negative. *)
Theorem recommend_jobs_at_most_top_k (env : gmap string string)
    (reply : gpt_reply) (profile : CandidateProfile.t)
    (jobs : list JobPosting.t) (top_k : Z) (use_gpt : option bool)
    (out : list Recommendation.t) :
  (0 ≤ top_k)%Z →
  recommend_jobs env reply profile jobs top_k use_gpt = Ok out →
  (Z.of_nat (length out) ≤ top_k)%Z.
Proof. apply recommend_jobs_length_le. Qed.

(** ** The request handler *)

Lemma recommend_jobs_jobs env reply profile jobs top_k use_gpt out r :
  recommend_jobs env reply profile jobs top_k use_gpt = Ok out →
  r ∈ out → Recommendation.job r ∈ jobs.
Proof.
  intros H Hr.
  destruct (recommend_jobs_cases env reply profile jobs top_k use_gpt)
    as [E|(out' & Hgpt & E)]; rewrite E in H; injection H as <-.
  - by eapply deterministic_rank_jobs.
  - by eapply gpt_rank_jobs.
Qed.

(** X17. The handler always answers. Every entry of the response takes its
    id, title and company together from one job of the request, and when
    [top_k] is not negative the response has at most [top_k] entries. *)
Theorem get_recommendations_entries (env : gmap string string)
    (reply : gpt_reply) (payload : RecommendationRequest.t) :
  ∃ response,
    get_recommendations env reply payload = Ok response
    ∧ (∀ entry,
         entry ∈ RecommendationResponse.recommendations response →
         ∃ job, job ∈ RecommendationRequest.jobs payload
                ∧ RecommendationOut.id entry = JobPostingIn.id job
                ∧ RecommendationOut.title entry = JobPostingIn.title job
                ∧ RecommendationOut.company entry = JobPostingIn.company job)
    ∧ ((0 ≤ RecommendationRequest.top_k payload)%Z →
       (Z.of_nat (length (RecommendationResponse.recommendations response))
        ≤ RecommendationRequest.top_k payload)%Z).
Proof.
  unfold get_recommendations.
  destruct (recommend_jobs_cases env reply
    (profile_of_payload (RecommendationRequest.profile payload))
    (job_of_payload <$> RecommendationRequest.jobs payload)
    (RecommendationRequest.top_k payload)
    (RecommendationRequest.use_gpt payload)) as [E|(out & _ & E)];
    rewrite E; simpl; eexists; (split; [done|]); simpl; split.
  - intros entry (r & -> & Hr)%list_elem_of_fmap.
    eapply recommend_jobs_jobs in Hr; [|exact E].
    apply list_elem_of_fmap in Hr as (job & Hr & Hjob). exists job.
    unfold recommendation_out. simpl. by rewrite Hr.
  - intros Hk. rewrite length_fmap. by eapply recommend_jobs_length_le.
  - intros entry (r & -> & Hr)%list_elem_of_fmap.
    eapply recommend_jobs_jobs in Hr; [|exact E].
    apply list_elem_of_fmap in Hr as (job & Hr & Hjob). exists job.
    unfold recommendation_out. simpl. by rewrite Hr.
  - intros Hk. rewrite length_fmap. by eapply recommend_jobs_length_le.
Qed.

(** ** Penalties *)

Section penalty_facts.
Local Open Scope Q_scope.
Variables (profile : CandidateProfile.t) (job : JobPosting.t).

Lemma remote_rule_no_penalty :
  (CandidateProfile.remote_only profile = true →
   JobPosting.remote job = true) →
  contributes (remote_rule profile job) 0 10.
Proof.
  intros H. unfold remote_rule.
  destruct (CandidateProfile.remote_only profile).
  - rewrite H by done. eexists _, _. split; [apply adds_bump|lra].
  - eexists _, _. split; [apply adds_skip|lra].
Qed.

Lemma compensation_rule_no_penalty :
  (∀ floor comp,
     CandidateProfile.min_compensation profile = Some floor →
     JobPosting.compensation job = Some comp →
     ¬ floor == 0 → ¬ comp == 0 → floor <= comp) →
  contributes (compensation_rule profile job) 0 10.
Proof.
  intros H. unfold compensation_rule.
  destruct (CandidateProfile.min_compensation profile) as [floor|];
    [|eexists _, _; split; [apply adds_skip|lra]].
  destruct (JobPosting.compensation job) as [comp|];
    [|eexists _, _; split; [apply adds_skip|lra]].
  destruct (truthy floor) eqn:Ef;
    [|eexists _, _; split; [apply adds_skip|lra]].
  destruct (truthy comp) eqn:Ec;
    [|eexists _, _; split; [apply adds_skip|lra]].
  simpl. assert (Qle_bool floor comp = true) as ->.
  { apply Qle_bool_iff, H; [done..| |].
    - apply (truthy_amount (Some floor)) in Ef as (x & [= <-] & Hx). done.
    - apply (truthy_amount (Some comp)) in Ec as (x & [= <-] & Hx). done. }
  eexists _, _. split; [apply adds_bump|lra].
Qed.

Lemma run_rules_no_penalty :
  contributes (remote_rule profile job) 0 10 →
  contributes (compensation_rule profile job) 0 10 →
  0 <= (run_rules profile job).1.
Proof.
  intros Hr Hc.
  pose proof (contributes_compose _ _ _ _ _ _
    (skill_rule_contributes profile job)
    (title_rule_contributes profile job)) as H1.
  pose proof (contributes_compose _ _ _ _ _ _ H1 Hr) as H2.
  pose proof (contributes_compose _ _ _ _ _ _ H2
    (location_rule_contributes profile job)) as H3.
  pose proof (contributes_compose _ _ _ _ _ _ H3 Hc) as H4.
  pose proof (contributes_compose _ _ _ _ _ _ H4
    (experience_rule_contributes profile job)) as H5.
  destruct (contributes_compose _ _ _ _ _ _ H5
    (industry_rule_contributes profile job)) as (d & bits & Hadd & Hd).
  destruct (Hadd (0, [])) as [E _]. simpl in E.
  unfold run_rules. rewrite E. lra.
Qed.
End penalty_facts.

(** X18. A score is negative only through a penalty. When the profile is
    not remote only or the job is remote, and the compensation of the job
    reaches the floor of the profile whenever both are present and not
    zero, the score is not negative. *)
Theorem score_nonnegative_without_penalty (profile : CandidateProfile.t)
    (job : JobPosting.t) :
  (CandidateProfile.remote_only profile = true →
   JobPosting.remote job = true) →
  (∀ floor comp,
     CandidateProfile.min_compensation profile = Some floor →
     JobPosting.compensation job = Some comp →
     ¬ (floor == 0)%Q → ¬ (comp == 0)%Q → (floor <= comp)%Q) →
  (0 <= Recommendation.score (_score_job profile job))%Q.
Proof.
  intros Hr Hc. rewrite score_job_score.
  change 0%Q with (round2 0). apply round2_mono.
  apply run_rules_no_penalty;
    [by apply remote_rule_no_penalty|by apply compensation_rule_no_penalty].
Qed.

(** ** The external strategy taken *)

(** X19. When the resolved flag is true, the credential is set and not
    empty, and the answer is well formed and names at least one job within
    the first [top_k] entries kept, the public operation returns the ranking
    of the answer as it is: the deterministic scorer takes no part, neither
    in the scores nor in the order. *)
Theorem recommend_jobs_external (env : gmap string string)
    (profile : CandidateProfile.t) (jobs : list JobPosting.t) (top_k : Z)
    (use_gpt : option bool) (items : list gpt_item) (key : string) :
  resolved_use_gpt env use_gpt = true →
  getenv env "OPENAI_API_KEY" = Some key → key ≠ EmptyString →
  Forall well_formed items →
  slice_to (omap (item_recommendation (job_lookup jobs)) items) top_k ≠ [] →
  recommend_jobs env (ReplyText (Some (DataDict (Some items)))) profile jobs
    top_k use_gpt
  = Ok (slice_to (omap (item_recommendation (job_lookup jobs)) items) top_k).
Proof.
  intros Hflag Hkey Hne Hitems Hout. unfold recommend_jobs.
  rewrite Hflag, Hkey.
  assert (truthy (Some key) = true) as ->.
  { apply Is_true_true. by apply truthy_str_spec. }
  simpl. rewrite gpt_loop_well_formed by done. simpl.
  by destruct (slice_to _ top_k).
Qed.

(** ** Instances of the further conditional properties *)

Lemma title_rule_words_witness :
  title_rule profile_a job_a (0%Q, [])
  = bump 15 "title matches target" (0%Q, [])
  ∧ title_rule profile_blank job_a (0%Q, []) = (0%Q, []).
Proof.
  split.
  - apply (title_rule_words profile_a job_a).
    exists "engineer", "Engineer". split_and!; [|  |done..].
    + apply (bool_decide_unpack _). by vm_compute.
    + apply (bool_decide_unpack _). by vm_compute.
  - apply (title_rule_words profile_blank job_a).
    intros (d & w & Hd & _). by apply elem_of_nil in Hd.
Defined.

Lemma title_rule_several_words_witness :
  title_rule profile_two_words job_a (0%Q, []) = (0%Q, []).
Proof.
  apply (title_rule_several_words profile_two_words job_a).
  intros d Hd. apply list_elem_of_singleton in Hd. by rewrite Hd.
Defined.

Lemma industry_rule_untrimmed_witness :
  industry_rule profile_highest job_untrimmed (0%Q, []) = (0%Q, []).
Proof.
  apply (industry_rule_untrimmed profile_highest job_untrimmed " tech").
  - reflexivity.
  - by vm_compute.
Defined.

Lemma location_rule_substring_witness :
  location_rule profile_highest job_highest (0%Q, [])
  = bump 10 "location match" (0%Q, [])
  ∧ location_rule profile_blank job_highest (0%Q, []) = (0%Q, []).
Proof.
  split.
  - apply (location_rule_substring profile_highest job_highest).
    by exists "berlin", "Berlin, DE", EmptyString, ", de".
  - apply (location_rule_substring profile_blank job_highest).
    by intros (ploc & jloc & pre & post & [=] & _).
Defined.

Lemma remote_rule_order_witness :
  (Recommendation.score
     (_score_job profile_highest (with_remote job_highest false))
   < Recommendation.score
       (_score_job profile_highest (with_remote job_highest true)))%Q
  ∧ run_rules profile_a (with_remote job_a true) = run_rules profile_a job_a.
Proof.
  split.
  - by apply (remote_rule_order profile_highest job_highest).
  - by apply (remote_rule_order profile_a job_a).
Defined.

Lemma rationale_fallback_witness :
  Recommendation.score (_score_job profile_blank job_b) = 0%Q.
Proof. apply (rationale_fallback profile_blank job_b). by vm_compute. Defined.

Lemma skill_full_coverage_witness :
  ((run_rules profile_a job_a).1
   == 60 + (other_rules profile_a job_a (0%Q, [])).1)%Q.
Proof.
  apply (skill_full_coverage profile_a job_a).
  - by vm_compute.
  - intros s Hs. apply (bool_decide_unpack _).
    assert (s = "python" ∨ s = "sql") as [-> | ->]; [|by vm_compute..].
    assert (_normalize (JobPosting.skills job_a) = ["python"; "sql"]) as E
      by (by vm_compute).
    rewrite E in Hs. rewrite !elem_of_cons, elem_of_nil in Hs. tauto.
Defined.

Lemma deterministic_rank_all_witness :
  Recommendation.job <$> deterministic_rank profile_a [job_b; job_a] 5
  ≡ₚ [job_b; job_a].
Proof. apply (deterministic_rank_all profile_a [job_b; job_a] 5). simpl. lia. Defined.

Lemma deterministic_rank_negative_witness :
  ∃ rest,
    sort_by_score_desc (_score_job profile_a <$> [job_b; job_a; job_b])
    = deterministic_rank profile_a [job_b; job_a; job_b] (-1) ++ rest
    ∧ Z.of_nat (length rest)
      = Z.min (Z.of_nat (length [job_b; job_a; job_b])) (- -1)
    ∧ Z.of_nat (length (deterministic_rank profile_a [job_b; job_a; job_b]
                          (-1)))
      = Z.max 0 (Z.of_nat (length [job_b; job_a; job_b]) + -1).
Proof.
  apply (deterministic_rank_negative profile_a [job_b; job_a; job_b] (-1)).
  lia.
Defined.

Lemma gpt_rank_well_formed_witness :
  _gpt_rank reply_two_items profile_a [job_a; job_b] 5
  = Ok (slice_to
          (omap (item_recommendation (job_lookup [job_a; job_b]))
             [ItemDict (IdStr "zzz") (ScoreFloat 9) "unknown";
              ItemDict (IdStr "b") (ScoreFloat 7) "fits"]) 5).
Proof.
  apply (gpt_rank_well_formed profile_a [job_a; job_b] 5).
  by repeat constructor.
Defined.

Lemma recommend_jobs_unusable_witness :
  recommend_jobs env_with_key ServiceFailure profile_a [job_a; job_b] 5 None
  = Ok (deterministic_rank profile_a [job_a; job_b] 5).
Proof.
  apply (recommend_jobs_unusable env_with_key ServiceFailure profile_a
           [job_a; job_b] 5 None).
  constructor.
Defined.

Lemma recommend_jobs_at_most_top_k_witness :
  (Z.of_nat (length [Recommendation.mk job_b 7 "fits"]) ≤ 1)%Z.
Proof.
  apply (recommend_jobs_at_most_top_k env_with_key reply_two_items profile_a
           [job_a; job_b] 1 None).
  - lia.
  - by vm_compute.
Defined.

Lemma get_recommendations_entries_witness :
  ∃ response,
    get_recommendations ∅ NoClientLibrary payload_a = Ok response
    ∧ (Z.of_nat (length (RecommendationResponse.recommendations response))
       ≤ 2)%Z.
Proof.
  destruct (get_recommendations_entries ∅ NoClientLibrary payload_a)
    as (response & E & _ & Hlen).
  exists response. split; [exact E|]. apply Hlen. simpl. lia.
Defined.

Lemma score_nonnegative_without_penalty_witness :
  (0 <= Recommendation.score (_score_job profile_highest job_highest))%Q.
Proof.
  apply (score_nonnegative_without_penalty profile_highest job_highest).
  - reflexivity.
  - intros floor comp [= <-] [= <-] _ _. by vm_compute.
Defined.

Lemma recommend_jobs_external_witness :
  recommend_jobs env_with_key reply_two_items profile_a [job_a; job_b] 5 None
  = Ok (slice_to
          (omap (item_recommendation (job_lookup [job_a; job_b]))
             [ItemDict (IdStr "zzz") (ScoreFloat 9) "unknown";
              ItemDict (IdStr "b") (ScoreFloat 7) "fits"]) 5).
Proof.
  apply (recommend_jobs_external env_with_key profile_a [job_a; job_b] 5 None
           _ "sk").
  - by vm_compute.
  - by vm_compute.
  - done.
  - by repeat constructor.
  - by vm_compute.
Defined.
